(** * stress-goto: the indirect-branch stressor of stress-ng

    A shallow embedding of [src/stress-goto.c]: the option handler
    [stress_set_goto_direction], the construction of the two label tables,
    the computed-goto loop of [stress_goto], its sanity check of the sample
    counters and the rate it reports. *)

From Stdlib Require Import ZArith Lia ZifyNat Uint63 Floats.
From stdpp Require Import gmap strings list fin_maps.

Local Open Scope Z_scope.

(** ** Machine integers and doubles *)

(** [uint64_t] values are integers in [0, 2^64); arithmetic wraps. *)
Definition u64_modulus : Z := 2 ^ 64.
Definition u64 (z : Z) : Z := z mod u64_modulus.
Definition u64_add (a b : Z) : Z := u64 (a + b).
Definition u64_sub (a b : Z) : Z := u64 (a - b).

(** [(double)x] for a [uint64_t] x: the binary64 number nearest to the
    integer, ties to even, as the IEEE 754 conversion gives it. *)
Definition double_of_u64 (x : Z) : float :=
  SF2Prim (binary_normalize prec emax x 0 false).

Definition EXIT_SUCCESS : Z := 0.
Definition EXIT_FAILURE : Z := 1.

(** ** The direction option *)

Definition STRESS_GOTO_FORWARD : Z := 1.
Definition STRESS_GOTO_BACKWARD : Z := 2.
Definition STRESS_GOTO_RANDOM : Z := 3.

(** [stress_goto_direction_t]: an option name and its direction. *)
Record stress_goto_direction_t := Direction {
  option_name : string;   (* the field [option] *)
  direction : Z;
}.

Definition stress_goto_direction : list stress_goto_direction_t :=
  [ Direction "forward" STRESS_GOTO_FORWARD;
    Direction "backward" STRESS_GOTO_BACKWARD;
    Direction "random" STRESS_GOTO_RANDOM ].

(** What the option handler can touch: the settings of the framework and
    the text written to [stderr]. *)
Record world := World {
  settings : gmap string Z;
  stderr : string;
}.

(** Modelled from the spec: [stress_set_setting] lives in the framework and
    is not part of the sources at hand.  The direction is "validated and
    stored" and the call reports success (0). *)
Definition stress_set_setting (name : string) (value : Z) (w : world) : Z * world :=
  (0, World (<[name := value]> (settings w)) (stderr w)).

(** Modelled from the spec: [stress_get_setting], likewise of the framework,
    overwrites the caller's variable only when the setting was stored. *)
Definition stress_get_setting (name : string) (current : Z) (s : gmap string Z) : Z :=
  match s !! name with
  | Some v => v
  | None => current
  end.

Definition fprintf (text : string) (w : world) : world :=
  World (settings w) (stderr w +:+ text).

Definition newline : string := String (Ascii.ascii_of_nat 10) EmptyString.

(** The first loop of the handler: the first entry whose name [strcmp]
    finds equal to [opts]. *)
Fixpoint find_direction (opts : string) (tbl : list stress_goto_direction_t)
  : option stress_goto_direction_t :=
  match tbl with
  | [] => None
  | d :: tbl' => if String.eqb opts (option_name d) then Some d else find_direction opts tbl'
  end.

(** The second loop: [fprintf(stderr, "%s %s", i == 0 ? "" : ",", option)]. *)
Fixpoint list_options (i : nat) (tbl : list stress_goto_direction_t) (w : world) : world :=
  match tbl with
  | [] => w
  | d :: tbl' =>
      let sep := if Nat.eqb i 0 then EmptyString else "," in
      list_options (S i) tbl' (fprintf (sep +:+ " " +:+ option_name d) w)
  end.

Definition stress_set_goto_direction (opts : string) (w : world) : Z * world :=
  match find_direction opts stress_goto_direction with
  | Some d => stress_set_setting "goto-direction" (direction d) w
  | None =>
      let w1 := fprintf ("goto-option option '" +:+ opts +:+ "' not known, options are:") w in
      let w2 := list_options 0 stress_goto_direction w1 in
      (-1, fprintf newline w2)
  end.

(** ** Labels and the two jump tables *)

(** A [const void *] that holds the address of a label: [Label n] is
    [&&L0xNNN] for the label number [n]; [NULL] is what a static array holds
    before it is written. *)
Inductive addr := NULL | Label (n : nat).

Definition MAX_LABELS : nat := 0x400.

(** [default_labels]: the addresses of [L0x000 .. L0x3ff], in this order. *)
Definition default_labels : list addr := Label <$> seq 0 MAX_LABELS.

Definition read (tbl : list addr) (i : nat) : addr := default NULL (tbl !! i).

(** One turn of the loop that fills both tables. *)
Definition fill_labels (tabs : list addr * list addr) (i : nat) : list addr * list addr :=
  (<[i := read default_labels ((i + 1) mod MAX_LABELS)]> (tabs.1),
   <[i := read default_labels ((MAX_LABELS + i - 1) mod MAX_LABELS)]> (tabs.2)).

Definition build_labels : list addr * list addr :=
  foldl fill_labels (replicate MAX_LABELS NULL, replicate MAX_LABELS NULL)
        (seq 0 MAX_LABELS).

Definition labels_forward : list addr := build_labels.1.
Definition labels_backward : list addr := build_labels.2.

(** [const void **labels] points to one of the two tables. *)
Inductive labels_ptr := to_labels_forward | to_labels_backward.

Definition deref (p : labels_ptr) : list addr :=
  match p with
  | to_labels_forward => labels_forward
  | to_labels_backward => labels_backward
  end.

(** [goto *tbl[n]]: the label control moves to; nothing when the entry is
    not the address of a label. *)
Definition goto (tbl : list addr) (n : nat) : option nat :=
  match tbl !! n with
  | Some (Label m) => Some m
  | _ => None
  end.

(** [k] jumps through [tbl], starting from label [s]. *)
Fixpoint follow (tbl : list addr) (k : nat) (s : nat) : option nat :=
  match k with
  | O => Some s
  | S k' => match goto tbl s with
            | Some m => follow tbl k' m
            | None => None
            end
  end.

(** ** The computed-goto loop *)

(** The variables of [stress_goto] that change while the loop runs, with the
    label control is at.  [L0x000] is the head of the [for (;;)] loop. *)
Record state := State {
  pc : nat;               (* control is at label L<pc> *)
  labels : labels_ptr;    (* const void **labels *)
  counters : list Z;      (* static uint64_t counters[MAX_LABELS >> 6] *)
  bogo : Z;               (* the bogo-op counter behind [args] *)
  polls : nat;            (* calls of stress_continue so far *)
  draws : nat;            (* calls of stress_mwc1 so far *)
}.

Inductive outcome :=
| Running (s : state)     (* control moved to another label *)
| Exited (s : state)      (* [break]: control left the loop *)
| Fault.                  (* a jump through something that is no label *)

(** Modelled from the spec: the bogo-op counter behind [args] is kept by the
    framework, whose code is not in the sources at hand; it is "initialized
    to zero at run start", [stress_bogo_inc] adds one to it and
    [stress_bogo_get] reads it. *)
Definition bogo_at_start : Z := 0.

(** [counters[k]++] *)
Definition incr (k : nat) (cs : list Z) : list Z := alter (λ c, u64_add c 1) k cs.

Section Loop.
(** [stress_continue(args)] and [stress_mwc1()] belong to the framework:
    the answer of the k-th call of each is a parameter. *)
Variable stress_continue : nat → bool.
Variable stress_mwc1 : nat → bool.
(** The local [goto_direction], fixed before the loop starts. *)
Variable goto_direction : Z.

(** The statements at [L0x000], up to [goto *labels[0]]. *)
Definition L0x000 (s : state) : outcome :=
  if negb (stress_continue (polls s)) then
    Exited (State (pc s) (labels s) (counters s) (bogo s) (S (polls s)) (draws s))
  else
    let labels' :=
      if goto_direction =? STRESS_GOTO_RANDOM then
        if stress_mwc1 (draws s) then to_labels_backward else to_labels_forward
      else labels s in
    let draws' :=
      if goto_direction =? STRESS_GOTO_RANDOM then S (draws s) else draws s in
    let bogo' := u64_add (bogo s) 1 in            (* stress_bogo_inc(args) *)
    let counters' := incr 0 (counters s) in       (* counters[0]++ *)
    match goto (deref labels') 0 with
    | Some m => Running (State m labels' counters' bogo' (S (polls s)) draws')
    | None => Fault
    end.

(** The macro [G(n)], for the label [n]. *)
Definition G (n : nat) (s : state) : outcome :=
  let counters' :=
    if Nat.eqb (Nat.land n 0x3f) 0 then incr (Nat.shiftr n 6) (counters s)
    else counters s in
  match goto (deref (labels s)) n with
  | Some m => Running (State m (labels s) counters' (bogo s) (polls s) (draws s))
  | None => Fault
  end.

(** What the code at the current label does.  The labels are [L0x000] and
    [G(0x001) .. G(0x3ff)]. *)
Definition step (s : state) : outcome :=
  match pc s with
  | O => L0x000 s
  | S _ => if Nat.ltb (pc s) MAX_LABELS then G (pc s) s else Fault
  end.

(** Run until the loop is left; [None] when the fuel runs out first or
    a jump faults. *)
Fixpoint exec (fuel : nat) (s : state) : option state :=
  match fuel with
  | O => None
  | S fuel' =>
      match step s with
      | Running s' => exec fuel' s'
      | Exited s' => Some s'
      | Fault => None
      end
  end.

(** [k] steps, as long as control stays in the loop. *)
Fixpoint steps (k : nat) (s : state) : outcome :=
  match k with
  | O => Running s
  | S k' =>
      match step s with
      | Running s' => steps k' s'
      | o => o
      end
  end.

(** [labels] on entry to the loop: the initialiser, then the [switch]. *)
Definition initial_labels : labels_ptr :=
  if goto_direction =? STRESS_GOTO_FORWARD then to_labels_forward
  else if goto_direction =? STRESS_GOTO_BACKWARD then to_labels_backward
  else if goto_direction =? STRESS_GOTO_RANDOM then to_labels_forward
  else to_labels_forward.

(** Entry to the loop: control at [L0x000], the static [counters] zeroed, no
    call of [stress_continue] or [stress_mwc1] made yet. *)
Definition initial_state : state :=
  State 0 initial_labels (replicate (Nat.shiftr MAX_LABELS 6) 0) bogo_at_start 0 0.
End Loop.

(** ** The sanity check and the rate *)

(** The arguments of one [pr_fail] call: [i * 64], [counters[i]], [lo], [hi]. *)
Record failure := Failure {
  fail_label : Z;
  fail_got : Z;
  fail_lo : Z;
  fail_hi : Z;
}.

(** The [for] loop over [counters], from index [i] on; [acc] holds [rc] and
    the failures printed so far. *)
Fixpoint check_counters (i : nat) (cs : list Z) (lo hi : Z) (acc : Z * list failure)
  : Z * list failure :=
  match cs with
  | [] => acc
  | c :: cs' =>
      let acc' :=
        if (c <? lo) || (c >? hi)
        then (EXIT_FAILURE, acc.2 ++ [Failure (Z.of_nat i * 64) c lo hi])
        else acc in
      check_counters (S i) cs' lo hi acc'
  end.

(** The check that follows the loop: [lo], [hi] and the [for] loop, giving
    [rc] and the failures printed. *)
Definition sanity_check (cs : list Z) (bogo_counter : Z) : Z * list failure :=
  let lo := u64_sub bogo_counter 1 in
  let hi := u64_add bogo_counter 1 in
  check_counters 0 cs lo hi (EXIT_SUCCESS, []).

Inductive mean_type := STRESS_HARMONIC_MEAN | STRESS_GEOMETRIC_MEAN.

(** The arguments of one [stress_metrics_set] call. *)
Record metric := Metric {
  metric_index : nat;
  metric_name : string;
  metric_value : float;
  metric_mean : mean_type;
}.

(** [rate]: [(duration > 0.0) ? (1024.0 * (double)bogo) / duration : 0.0] *)
Definition goto_rate (bogo_counter : Z) (duration : float) : float :=
  (if 0 <? duration then 1024 * double_of_u64 bogo_counter / duration else 0)%float.

(** ** [stress_goto] *)

Record result := Result {
  rc : Z;                     (* the value returned *)
  final : state;              (* the state in which the loop was left *)
  failures : list failure;    (* the pr_fail calls, in order *)
  metrics : list metric;      (* the stress_metrics_set calls, in order *)
}.

(** [t1] and [t2] are the two readings of [stress_time_now()]; [stored] are
    the settings of the framework. *)
Definition stress_goto (stress_continue stress_mwc1 : nat → bool)
    (stored : gmap string Z) (t1 t2 : float) (fuel : nat) : option result :=
  let goto_direction := stress_get_setting "goto-direction" STRESS_GOTO_RANDOM stored in
  match exec stress_continue stress_mwc1 goto_direction fuel
             (initial_state goto_direction) with
  | None => None
  | Some s =>
      let bogo_counter := bogo s in                 (* stress_bogo_get(args) *)
      let chk := sanity_check (counters s) bogo_counter in
      let duration := (t2 - t1)%float in
      let rate := goto_rate (bogo s) duration in
      Some (Result chk.1 s chk.2
              [Metric 0 "million gotos per sec" (rate / 1000000)%float
                      STRESS_HARMONIC_MEAN])
  end.

(** How an invocation ends: on the error of the option handler, or with the
    stressor run. *)
Inductive invocation :=
| ConfigurationError (w : world)
| Ran (w : world) (r : option result).

(** Modelled from the spec: the caller of the option handler and of the
    stressor is the framework, which is not in the sources at hand.  "A
    configuration error short-circuits directly from Idle to a terminal failed
    state without ever reaching Running"; without a direction option nothing
    is stored before the run. *)
Definition invoke (token : option string) (stress_continue stress_mwc1 : nat → bool)
    (t1 t2 : float) (fuel : nat) : invocation :=
  let w0 := World ∅ EmptyString in
  match token with
  | None => Ran w0 (stress_goto stress_continue stress_mwc1 (settings w0) t1 t2 fuel)
  | Some opts =>
      let '(ret, w) := stress_set_goto_direction opts w0 in
      if ret <? 0 then ConfigurationError w
      else Ran w (stress_goto stress_continue stress_mwc1 (settings w) t1 t2 fuel)
  end.

(** ** Invariants of the loop *)

(** Whether, in the pass under way, control has already been through the
    label [64 * j], when it is at label [n] and follows the table [p].  At
    [L0x000] no pass is under way. *)
Definition passed (p : labels_ptr) (n j : nat) : bool :=
  match p with
  | to_labels_forward => bool_decide (n = 0 ∨ 64 * j < n)%nat
  | to_labels_backward => bool_decide (n = 0 ∨ j = 0 ∨ n < 64 * j)%nat
  end.

(** The label that follows [n] in the table [p]. *)
Definition next (p : labels_ptr) (n : nat) : nat :=
  match p with
  | to_labels_forward => ((n + 1) mod MAX_LABELS)%nat
  | to_labels_backward => ((MAX_LABELS + n - 1) mod MAX_LABELS)%nat
  end.

(** The labels still to run before control is back at [L0x000]. *)
Definition togo (p : labels_ptr) (n : nat) : nat :=
  match p with
  | to_labels_forward => (MAX_LABELS - n)%nat
  | to_labels_backward => n
  end.

(** Every sample counter holds the bogo-op count, less one where the pass
    under way has yet to come by. *)
Record consistent (s : state) : Prop := Consistent {
  consistent_pc : (pc s < MAX_LABELS)%nat;
  consistent_bogo : 0 ≤ bogo s < u64_modulus;
  consistent_counters : ∀ j, (j < 16)%nat →
    counters s !! j =
      Some (if passed (labels s) (pc s) j then bogo s else u64_sub (bogo s) 1);
  consistent_length : length (counters s) = 16%nat;
}.

(** How the table in use relates to the direction and to the bits drawn. *)
Definition selected (stress_mwc1 : nat → bool) (goto_direction : Z) (s : state) : Prop :=
  if goto_direction =? STRESS_GOTO_RANDOM then
    bogo s = u64 (Z.of_nat (draws s)) ∧
    labels s = match draws s with
               | O => to_labels_forward
               | S j => if stress_mwc1 j then to_labels_backward else to_labels_forward
               end
  else
    draws s = O ∧ labels s = initial_labels goto_direction.

(** ** The sanity check, as specified *)

(** What label [64 * k] contributes: one violation when its counter [c] is
    outside the inclusive range from [lo] to [hi], nothing otherwise. *)
Definition violation (lo hi : Z) (k : nat) (c : Z) : list failure :=
  if decide (c < lo ∨ hi < c) then [Failure (Z.of_nat k * 64) c lo hi] else [].

(** All violations, collected in the order of the counters. *)
Definition violations (cs : list Z) (lo hi : Z) : list failure :=
  concat (imap (violation lo hi) cs).

(** ** Vocabulary for whole runs *)

(** [stress_continue] says go on at its calls before the [p]-th (counted from
    zero) and stop at that one. *)
Definition first_stop (stress_continue : nat → bool) (p : nat) : Prop :=
  (∀ q, (q < p)%nat → stress_continue q = true) ∧ stress_continue p = false.

(** What a caller of [stress_goto] sees of it: the value returned, the
    bogo-op count, the sample counters, the failures printed and the metric. *)
Definition observable (r : result)
  : Z * Z * list Z * list failure * list metric :=
  (rc r, bogo (final r), counters (final r), failures r, metrics r).

(** * Properties *)

Ltac Zify.zify_post_hook ::= Z.to_euclidean_division_equations.

Local Open Scope nat_scope.

(** ** The jump tables *)

Section Tables.

Lemma MAX_LABELS_val : MAX_LABELS = 1024.
Proof. reflexivity. Qed.

Lemma read_default_labels j : j < MAX_LABELS → read default_labels j = Label j.
Proof.
  intros Hj. unfold read, default_labels.
  by rewrite list_lookup_fmap, lookup_seq_lt.
Qed.

(** The first [n] turns of the loop write the first [n] entries of both
    tables and leave the others as they were. *)
Lemma fill_labels_fold n : ∀ tabs,
  n ≤ length tabs.1 → n ≤ length tabs.2 →
  let r := foldl fill_labels tabs (seq 0 n) in
  (length r.1 = length tabs.1 ∧ length r.2 = length tabs.2) ∧
  ∀ i,
    r.1 !! i = (if decide (i < n)
                then Some (read default_labels ((i + 1) mod MAX_LABELS))
                else tabs.1 !! i) ∧
    r.2 !! i = (if decide (i < n)
                then Some (read default_labels ((MAX_LABELS + i - 1) mod MAX_LABELS))
                else tabs.2 !! i).
Proof.
  induction n as [|n IH]; intros tabs H1 H2.
  - cbn. split; [done|]. intros i. by rewrite !decide_False by lia.
  - rewrite seq_S, foldl_app. cbn [foldl Nat.add].
    destruct (IH tabs) as [[Hl1 Hl2] Hlook]; [lia..|].
    set (r := foldl fill_labels tabs (seq 0 n)) in *.
    unfold fill_labels. cbn [fst snd]. split.
    + by rewrite !length_insert.
    + intros i. destruct (Hlook i) as [Hf Hb].
      destruct (decide (i = n)) as [->|Hne].
      * rewrite !list_lookup_insert_eq by lia. by rewrite !decide_True by lia.
      * rewrite !list_lookup_insert_ne by done. rewrite Hf, Hb.
        repeat case_decide; first [done | lia].
Qed.

(** Whatever the two arrays held before, the loop leaves both fully written:
    entry [i] of the forward table is the label after [i], entry [i] of the
    backward table the label before, both cyclically. *)
Lemma fill_labels_all fwd0 bwd0 :
  length fwd0 = MAX_LABELS → length bwd0 = MAX_LABELS →
  foldl fill_labels (fwd0, bwd0) (seq 0 MAX_LABELS) =
    ((λ i, Label ((i + 1) mod MAX_LABELS)) <$> seq 0 MAX_LABELS,
     (λ i, Label ((MAX_LABELS + i - 1) mod MAX_LABELS)) <$> seq 0 MAX_LABELS).
Proof.
  intros Hf Hb.
  destruct (fill_labels_fold MAX_LABELS (fwd0, bwd0)) as [[Hl1 Hl2] Hlook];
    [cbn [fst]; lia | cbn [snd]; lia |].
  cbn [fst snd] in *. destruct (foldl _ _ _) as [fwd bwd]. cbn [fst snd] in *.
  f_equal; apply list_eq; intros i; destruct (Hlook i) as [Hi1 Hi2];
    rewrite ?Hi1, ?Hi2, list_lookup_fmap; case_decide.
  - rewrite lookup_seq_lt by done.
    by rewrite read_default_labels by (apply Nat.mod_upper_bound; done).
  - rewrite lookup_seq_ge by lia. apply lookup_ge_None_2. lia.
  - rewrite lookup_seq_lt by done.
    by rewrite read_default_labels by (apply Nat.mod_upper_bound; done).
  - rewrite lookup_seq_ge by lia. apply lookup_ge_None_2. lia.
Qed.

Lemma build_labels_eq :
  build_labels =
    ((λ i, Label ((i + 1) mod MAX_LABELS)) <$> seq 0 MAX_LABELS,
     (λ i, Label ((MAX_LABELS + i - 1) mod MAX_LABELS)) <$> seq 0 MAX_LABELS).
Proof. apply fill_labels_all; apply length_replicate. Qed.

Lemma labels_forward_eq :
  labels_forward = (λ i, Label ((i + 1) mod MAX_LABELS)) <$> seq 0 MAX_LABELS.
Proof. unfold labels_forward. by rewrite build_labels_eq. Qed.

Lemma labels_backward_eq :
  labels_backward = (λ i, Label ((MAX_LABELS + i - 1) mod MAX_LABELS)) <$> seq 0 MAX_LABELS.
Proof. unfold labels_backward. by rewrite build_labels_eq. Qed.

Lemma labels_forward_lookup i :
  i < MAX_LABELS → labels_forward !! i = Some (Label ((i + 1) mod MAX_LABELS)).
Proof.
  intros Hi. rewrite labels_forward_eq, list_lookup_fmap, lookup_seq_lt by done.
  reflexivity.
Qed.

Lemma labels_backward_lookup i :
  i < MAX_LABELS →
  labels_backward !! i = Some (Label ((MAX_LABELS + i - 1) mod MAX_LABELS)).
Proof.
  intros Hi. rewrite labels_backward_eq, list_lookup_fmap, lookup_seq_lt by done.
  reflexivity.
Qed.

Lemma goto_forward i :
  i < MAX_LABELS → goto labels_forward i = Some ((i + 1) mod MAX_LABELS).
Proof. intros Hi. unfold goto. by rewrite labels_forward_lookup. Qed.

Lemma goto_backward i :
  i < MAX_LABELS → goto labels_backward i = Some ((MAX_LABELS + i - 1) mod MAX_LABELS).
Proof. intros Hi. unfold goto. by rewrite labels_backward_lookup. Qed.

(** Where [k] jumps lead. *)
Lemma follow_forward k : ∀ s,
  s < MAX_LABELS → follow labels_forward k s = Some ((s + k) mod MAX_LABELS).
Proof.
  induction k as [|k IH]; intros s Hs; cbn [follow].
  - f_equal. rewrite Nat.add_0_r, Nat.mod_small; done.
  - rewrite goto_forward by done. rewrite IH by (apply Nat.mod_upper_bound; done).
    rewrite Nat.Div0.add_mod_idemp_l. do 2 f_equal. lia.
Qed.

Lemma follow_backward k : ∀ s,
  s < MAX_LABELS →
  follow labels_backward k s = Some ((s + k * (MAX_LABELS - 1)) mod MAX_LABELS).
Proof.
  induction k as [|k IH]; intros s Hs; cbn [follow].
  - f_equal. rewrite Nat.add_0_r, Nat.mod_small; done.
  - rewrite goto_backward by done. rewrite IH by (apply Nat.mod_upper_bound; done).
    rewrite Nat.Div0.add_mod_idemp_l. do 2 f_equal. rewrite MAX_LABELS_val in *. lia.
Qed.

End Tables.

Section Cycles.

(** From any start, every label is reached after a unique number of jumps
    below [MAX_LABELS]. *)
Lemma forward_visits_once s i :
  s < MAX_LABELS → i < MAX_LABELS →
  ∃ k, (k < MAX_LABELS ∧ follow labels_forward k s = Some i) ∧
       ∀ k', k' < MAX_LABELS ∧ follow labels_forward k' s = Some i → k = k'.
Proof.
  intros Hs Hi.
  exists (if decide (s ≤ i) then i - s else MAX_LABELS + i - s).
  rewrite follow_forward by done. split.
  - rewrite MAX_LABELS_val in *. case_decide; split; try f_equal; lia.
  - intros k' [Hk' Hf]. rewrite follow_forward in Hf by done.
    apply (inj Some) in Hf. rewrite MAX_LABELS_val in *. case_decide; lia.
Qed.

Lemma backward_visits_once s i :
  s < MAX_LABELS → i < MAX_LABELS →
  ∃ k, (k < MAX_LABELS ∧ follow labels_backward k s = Some i) ∧
       ∀ k', k' < MAX_LABELS ∧ follow labels_backward k' s = Some i → k = k'.
Proof.
  intros Hs Hi.
  exists (if decide (i ≤ s) then s - i else MAX_LABELS + s - i).
  rewrite follow_backward by done. split.
  - rewrite MAX_LABELS_val in *. case_decide; split; try f_equal; lia.
  - intros k' [Hk' Hf]. rewrite follow_backward in Hf by done.
    apply (inj Some) in Hf. rewrite MAX_LABELS_val in *. case_decide; lia.
Qed.

Lemma forward_returns s :
  s < MAX_LABELS → follow labels_forward MAX_LABELS s = Some s.
Proof.
  intros Hs. rewrite follow_forward by done. f_equal.
  rewrite MAX_LABELS_val in *. lia.
Qed.

Lemma backward_returns s :
  s < MAX_LABELS → follow labels_backward MAX_LABELS s = Some s.
Proof.
  intros Hs. rewrite follow_backward by done. f_equal.
  rewrite MAX_LABELS_val in *. lia.
Qed.

End Cycles.

(** ** Wrap-around arithmetic *)

Section U64.
Local Open Scope Z_scope.

Lemma u64_modulus_val : u64_modulus = 18446744073709551616.
Proof. reflexivity. Qed.

Lemma u64_range z : 0 ≤ u64 z < u64_modulus.
Proof. unfold u64. apply Z.mod_pos_bound. reflexivity. Qed.

Lemma u64_small z : 0 ≤ z < u64_modulus → u64 z = z.
Proof. intros Hz. unfold u64. by apply Z.mod_small. Qed.

Lemma u64_add_u64 z : u64_add (u64 z) 1 = u64 (z + 1).
Proof. unfold u64_add, u64. apply Zplus_mod_idemp_l. Qed.

Lemma u64_sub_add b : 0 ≤ b < u64_modulus → u64_sub (u64_add b 1) 1 = b.
Proof.
  intros Hb. unfold u64_sub, u64_add, u64.
  rewrite Zminus_mod_idemp_l. replace (b + 1 - 1) with b by lia.
  by apply Z.mod_small.
Qed.

Lemma u64_add_sub b : 0 ≤ b < u64_modulus → u64_add (u64_sub b 1) 1 = b.
Proof.
  intros Hb. unfold u64_sub, u64_add, u64.
  rewrite Zplus_mod_idemp_l. replace (b - 1 + 1) with b by lia.
  by apply Z.mod_small.
Qed.
End U64.

(** ** One step of the loop *)

Ltac labels_arith := rewrite ?MAX_LABELS_val in *; lia.

Section Steps.
Context (stress_continue stress_mwc1 : nat → bool) (goto_direction : Z).

Local Abbreviation Step := (step stress_continue stress_mwc1 goto_direction).
Local Abbreviation Steps := (steps stress_continue stress_mwc1 goto_direction).
Local Abbreviation Exec := (exec stress_continue stress_mwc1 goto_direction).

Lemma land_0x3f n : Nat.land n 0x3f = n mod 64.
Proof. change 0x3f with (Nat.ones 6). apply Nat.land_ones. Qed.

Lemma shiftr_6 n : Nat.shiftr n 6 = n / 64.
Proof. apply Nat.shiftr_div_pow2. Qed.

Lemma goto_deref p n : n < MAX_LABELS → goto (deref p) n = Some (next p n).
Proof. intros Hn. destruct p; [by apply goto_forward | by apply goto_backward]. Qed.

Lemma next_bound p n : next p n < MAX_LABELS.
Proof. destruct p; apply Nat.mod_upper_bound; done. Qed.

Lemma incr_lookup k cs j :
  incr k cs !! j = if decide (k = j) then (λ c, u64_add c 1) <$> cs !! j else cs !! j.
Proof.
  unfold incr. case_decide as Hk.
  - subst. apply list_lookup_alter_eq.
  - by apply list_lookup_alter_ne.
Qed.

Lemma incr_length k cs : length (incr k cs) = length cs.
Proof. apply length_alter. Qed.

(** The code at a label other than [L0x000] bumps at most the counter of
    that label and moves on along the table in use. *)
Lemma G_consistent s :
  consistent s → pc s ≠ 0 →
  ∃ s', Step s = Running s' ∧ consistent s' ∧
        pc s' = next (labels s) (pc s) ∧ labels s' = labels s ∧
        bogo s' = bogo s ∧ polls s' = polls s ∧ draws s' = draws s.
Proof.
  destruct s as [n p cs b po dr]. intros [Hpc Hb Hcs Hlen] Hn.
  cbn [pc labels counters bogo polls draws] in *.
  unfold step, G. cbn [pc labels counters bogo polls draws].
  destruct n as [|n']; [done|]. set (n := S n') in *.
  replace (n <? MAX_LABELS) with true by (symmetry; by apply Nat.ltb_lt).
  rewrite goto_deref by done. eexists. split; [reflexivity|].
  cbn [pc labels counters bogo polls draws]. split; [|done].
  split; cbn [pc labels counters bogo polls draws].
  - apply next_bound.
  - done.
  - intros j Hj. rewrite land_0x3f, shiftr_6. specialize (Hcs j Hj).
    destruct (Nat.eqb_spec (n mod 64) 0) as [Hm|Hm].
    + rewrite incr_lookup, Hcs. case_decide as Hd.
      * cbn [fmap option_fmap option_map]. f_equal.
        destruct p; unfold passed, next in *; repeat case_bool_decide;
          first [ by apply u64_add_sub | labels_arith ].
      * f_equal.
        destruct p; unfold passed, next in *; repeat case_bool_decide;
          first [ done | labels_arith ].
    + rewrite Hcs. f_equal.
      destruct p; unfold passed, next in *; repeat case_bool_decide;
        first [ done | labels_arith ].
  - destruct (Nat.eqb (Nat.land n 63) 0); [by rewrite incr_length | done].
Qed.

(** When [stress_continue] says stop, the loop is left with nothing touched. *)
Lemma L0x000_break s :
  pc s = 0 → stress_continue (polls s) = false →
  Step s = Exited (State (pc s) (labels s) (counters s) (bogo s) (S (polls s)) (draws s)).
Proof.
  intros Hpc Hsc. unfold step, L0x000. by rewrite Hpc, Hsc.
Qed.

(** Otherwise a pass starts: the table is chosen, the bogo-op counter and
    the counter of label 0 go up, and control follows the table. *)
Lemma L0x000_consistent s :
  consistent s → pc s = 0 → stress_continue (polls s) = true →
  ∃ s', Step s = Running s' ∧ consistent s' ∧
        labels s' = (if (goto_direction =? STRESS_GOTO_RANDOM)%Z then
                       if stress_mwc1 (draws s) then to_labels_backward
                       else to_labels_forward
                     else labels s) ∧
        draws s' = (if (goto_direction =? STRESS_GOTO_RANDOM)%Z then S (draws s)
                    else draws s) ∧
        pc s' = next (labels s') 0 ∧
        bogo s' = u64_add (bogo s) 1 ∧ polls s' = S (polls s).
Proof.
  destruct s as [n p cs b po dr]. intros [Hpc Hb Hcs Hlen] Hn Hsc.
  cbn [pc labels counters bogo polls draws] in *. subst n.
  unfold step, L0x000. cbn [pc labels counters bogo polls draws].
  rewrite Hsc. cbn [negb].
  set (p' := if (goto_direction =? STRESS_GOTO_RANDOM)%Z then _ else p).
  rewrite goto_deref by done. eexists. split; [reflexivity|].
  cbn [pc labels counters bogo polls draws]. split; [|done].
  split; cbn [pc labels counters bogo polls draws].
  - apply next_bound.
  - apply u64_range.
  - intros j Hj. specialize (Hcs j Hj). rewrite incr_lookup, Hcs.
    replace (passed p 0 j) with true
      by (symmetry; destruct p; apply bool_decide_eq_true; lia).
    case_decide as Hd.
    + cbn [fmap option_fmap option_map]. f_equal.
      destruct p'; unfold passed, next; repeat case_bool_decide;
        first [ done | labels_arith ].
    + f_equal.
      destruct p'; unfold passed, next; repeat case_bool_decide;
        first [ by rewrite u64_sub_add | labels_arith ].
  - by rewrite incr_length.
Qed.

(** A step keeps the counters consistent, and only [L0x000] leaves the loop. *)
Lemma step_consistent s :
  consistent s →
  match Step s with
  | Running s' => consistent s'
  | Exited s' => consistent s' ∧ pc s' = 0 ∧ stress_continue (polls s) = false
  | Fault => False
  end.
Proof.
  intros Hs. destruct (decide (pc s = 0)) as [Hpc|Hpc].
  - destruct (stress_continue (polls s)) eqn:Hsc.
    + destruct (L0x000_consistent s Hs Hpc Hsc) as (s' & -> & Hs' & _). done.
    + rewrite L0x000_break by done. split; [|done].
      destruct Hs. by split.
  - destruct (G_consistent s Hs Hpc) as (s' & -> & Hs' & _). done.
Qed.

Lemma exec_consistent fuel : ∀ s s',
  consistent s → Exec fuel s = Some s' → consistent s' ∧ pc s' = 0.
Proof.
  induction fuel as [|fuel IH]; intros s s' Hs He; [done|].
  cbn [exec] in He. pose proof (step_consistent s Hs) as Hstep.
  destruct (Step s) as [s1|s1|]; [by eapply IH | | done].
  destruct Hstep as (? & ? & _). by simplify_eq.
Qed.

(** ** Passes *)

Lemma steps_add a : ∀ b s,
  Steps (a + b) s = match Steps a s with Running s' => Steps b s' | o => o end.
Proof.
  induction a as [|a IH]; intros b s; cbn [steps Nat.add]; [done|].
  destruct (Step s); [apply IH | done | done].
Qed.

Lemma exec_steps k : ∀ fuel s s',
  Steps k s = Running s' → Exec (k + fuel) s = Exec fuel s'.
Proof.
  induction k as [|k IH]; intros fuel s s' Hk; cbn [steps exec Nat.add] in *.
  - by simplify_eq.
  - destruct (Step s); [by apply IH | done | done].
Qed.

Lemma exec_more fuel : ∀ extra s s',
  Exec fuel s = Some s' → Exec (fuel + extra) s = Some s'.
Proof.
  induction fuel as [|fuel IH]; intros extra s s' He; cbn [exec Nat.add] in *; [done|].
  destruct (Step s); [by apply IH | done | done].
Qed.

(** From a label of the pass under way, control is back at [L0x000] after
    [togo] steps, and nothing but the sample counters has changed. *)
Lemma rest_of_pass k : ∀ s,
  consistent s → pc s ≠ 0 → togo (labels s) (pc s) = k →
  ∃ s', Steps k s = Running s' ∧ consistent s' ∧ pc s' = 0 ∧
        labels s' = labels s ∧ bogo s' = bogo s ∧
        polls s' = polls s ∧ draws s' = draws s.
Proof.
  induction k as [|k IH]; intros s Hs Hpc Htogo.
  - exfalso. destruct Hs as [Hlt _ _ _].
    destruct (labels s); unfold togo in *; labels_arith.
  - destruct (G_consistent s Hs Hpc) as (s1 & Hstep & Hs1 & Hpc1 & Hl1 & Hb1 & Hp1 & Hd1).
    cbn [steps]. rewrite Hstep.
    assert (Hlt : pc s < MAX_LABELS) by (by destruct Hs).
    destruct (decide (pc s1 = 0)) as [Hz|Hz].
    + assert (k = 0) as ->
        by (destruct (labels s); unfold togo, next in *; labels_arith).
      exists s1. by cbn [steps].
    + destruct (IH s1 Hs1 Hz) as (s2 & Hsteps & Hs2 & Hpc2 & Hl2 & Hb2 & Hp2 & Hd2).
      { rewrite Hl1. destruct (labels s); unfold togo, next in *; labels_arith. }
      exists s2. split_and!; [done | done | done | congruence ..].
Qed.

(** A pass takes [MAX_LABELS] steps, from [L0x000] back to [L0x000]. *)
Lemma whole_pass s :
  consistent s → pc s = 0 → stress_continue (polls s) = true →
  ∃ s', Steps MAX_LABELS s = Running s' ∧ consistent s' ∧ pc s' = 0 ∧
        labels s' = (if (goto_direction =? STRESS_GOTO_RANDOM)%Z then
                       if stress_mwc1 (draws s) then to_labels_backward
                       else to_labels_forward
                     else labels s) ∧
        draws s' = (if (goto_direction =? STRESS_GOTO_RANDOM)%Z then S (draws s)
                    else draws s) ∧
        bogo s' = u64_add (bogo s) 1 ∧ polls s' = S (polls s).
Proof.
  intros Hs Hpc Hsc.
  destruct (L0x000_consistent s Hs Hpc Hsc)
    as (s1 & Hstep & Hs1 & Hl1 & Hd1 & Hpc1 & Hb1 & Hp1).
  assert (Htogo : togo (labels s1) (pc s1) = MAX_LABELS - 1).
  { rewrite Hpc1. destruct (labels s1); unfold togo, next; labels_arith. }
  assert (Hnz : pc s1 ≠ 0).
  { rewrite Hpc1. destruct (labels s1); unfold next; labels_arith. }
  destruct (rest_of_pass _ s1 Hs1 Hnz Htogo)
    as (s2 & Hsteps & Hs2 & Hpc2 & Hl2 & Hb2 & Hp2 & Hd2).
  exists s2. split.
  - replace MAX_LABELS with (1 + (MAX_LABELS - 1)) at 1 by labels_arith.
    rewrite steps_add. cbn [steps]. by rewrite Hstep.
  - split_and!; [done | done | congruence ..].
Qed.

(** If [stress_continue] says go on [p] times and stop then, the loop is
    left after [p] passes. *)
Lemma run_passes p : ∀ s,
  consistent s → pc s = 0 →
  (∀ q, q < p → stress_continue (polls s + q) = true) →
  stress_continue (polls s + p) = false →
  ∃ s', Exec (p * MAX_LABELS + 1) s = Some s' ∧ consistent s' ∧ pc s' = 0 ∧
        bogo s' = u64 (bogo s + Z.of_nat p) ∧ polls s' = S (polls s + p).
Proof.
  induction p as [|p IH]; intros s Hs Hpc Hgo Hstop.
  - rewrite Nat.add_0_r in Hstop. cbn [Nat.mul Nat.add exec].
    rewrite L0x000_break by done. eexists. split; [reflexivity|].
    cbn [pc bogo polls]. destruct Hs as [Hlt Hb Hcs Hlen].
    split_and!; try done.
    rewrite Z.add_0_r. symmetry. by apply u64_small.
  - destruct (whole_pass s Hs Hpc) as (s1 & Hsteps & Hs1 & Hpc1 & _ & _ & Hb1 & Hp1).
    { rewrite <- (Nat.add_0_r (polls s)). apply Hgo. lia. }
    destruct (IH s1 Hs1 Hpc1) as (s2 & Hexec & Hs2 & Hpc2 & Hb2 & Hp2).
    { intros q Hq. rewrite Hp1. replace (S (polls s) + q) with (polls s + S q) by lia.
      apply Hgo. lia. }
    { rewrite Hp1. by replace (S (polls s) + p) with (polls s + S p) by lia. }
    exists s2. split.
    + replace (S p * MAX_LABELS + 1) with (MAX_LABELS + (p * MAX_LABELS + 1)) by lia.
      by rewrite (exec_steps _ _ _ _ Hsteps).
    + split_and!; try done.
      * rewrite Hb2, Hb1. unfold u64_add, u64.
        rewrite Zplus_mod_idemp_l. f_equal. lia.
      * rewrite Hp2, Hp1. lia.
Qed.

(** ** The table in use *)

Lemma step_selected s :
  selected stress_mwc1 goto_direction s →
  match Step s with
  | Running s' | Exited s' => selected stress_mwc1 goto_direction s'
  | Fault => True
  end.
Proof.
  unfold selected, step, L0x000, G. intros Hsel.
  destruct (pc s) as [|n].
  - destruct (stress_continue (polls s)); cbn [negb]; [|done].
    destruct (goto _ 0); [|done]. cbn [bogo draws labels].
    destruct (goto_direction =? STRESS_GOTO_RANDOM)%Z; [|done].
    destruct Hsel as [Hb _]. split; [|done].
    rewrite Hb, u64_add_u64. f_equal. lia.
  - destruct (S n <? MAX_LABELS); [|done].
    destruct (goto _ (S n)); done.
Qed.

Lemma steps_selected k : ∀ s,
  selected stress_mwc1 goto_direction s →
  match Steps k s with
  | Running s' | Exited s' => selected stress_mwc1 goto_direction s'
  | Fault => True
  end.
Proof.
  induction k as [|k IH]; intros s Hsel; cbn [steps]; [done|].
  pose proof (step_selected s Hsel) as Hstep.
  destruct (Step s); [by apply IH | done | done].
Qed.

Lemma exec_selected fuel : ∀ s s',
  selected stress_mwc1 goto_direction s → Exec fuel s = Some s' →
  selected stress_mwc1 goto_direction s'.
Proof.
  induction fuel as [|fuel IH]; intros s s' Hsel He; cbn [exec] in He; [done|].
  pose proof (step_selected s Hsel) as Hstep.
  destruct (Step s); [by eapply IH | by simplify_eq | done].
Qed.

(** ** Entry to the loop *)

Lemma counters_size : Nat.shiftr MAX_LABELS 6 = 16.
Proof. reflexivity. Qed.

Lemma initial_consistent : consistent (initial_state goto_direction).
Proof.
  unfold initial_state. rewrite counters_size.
  split; cbn [pc labels counters bogo].
  - labels_arith.
  - done.
  - intros j Hj. rewrite lookup_replicate_2 by done. f_equal.
    symmetry. destruct (initial_labels _); cbn [passed];
      rewrite bool_decide_eq_true_2; auto.
  - apply length_replicate.
Qed.

Lemma initial_selected : selected stress_mwc1 goto_direction (initial_state goto_direction).
Proof.
  unfold selected, initial_state, initial_labels. cbn [bogo draws labels].
  destruct (goto_direction =? STRESS_GOTO_RANDOM)%Z eqn:Hr; [|done].
  apply Z.eqb_eq in Hr. by rewrite Hr.
Qed.
End Steps.

(** With control at [L0x000], consistent counters all hold the bogo-op count. *)
Lemma consistent_at_L0x000 s :
  consistent s → pc s = 0 → counters s = replicate 16 (bogo s).
Proof.
  intros [Hpc Hb Hcs Hlen] Hn. apply list_eq. intros j.
  destruct (decide (j < 16)) as [Hj|Hj].
  - rewrite Hcs by done. rewrite lookup_replicate_2 by done. f_equal.
    rewrite Hn. destruct (labels s); cbn [passed];
      rewrite bool_decide_eq_true_2; auto.
  - rewrite !lookup_ge_None_2; [done | rewrite length_replicate; lia | lia].
Qed.

(** ** The sanity check *)

Section Check.
Local Open Scope Z_scope.

Lemma check_counters_from cs : ∀ i lo hi acc,
  check_counters i cs lo hi acc =
    let found := concat (imap (λ k, violation lo hi (i + k)) cs) in
    (match found with [] => acc.1 | _ :: _ => EXIT_FAILURE end, acc.2 ++ found).
Proof.
  induction cs as [|c cs IH]; intros i lo hi acc; cbn [check_counters].
  - cbn. rewrite app_nil_r. by destruct acc.
  - rewrite IH. rewrite imap_cons, concat_cons. cbn zeta.
    replace (imap ((λ k, violation lo hi (i + k)%nat) ∘ S) cs)
      with (imap (λ k, violation lo hi (S i + k)%nat) cs)
      by (apply imap_ext; intros k x _; cbn; f_equal; lia).
    set (rest := concat _). rewrite Nat.add_0_r.
    destruct (decide (c < lo ∨ hi < c)) as [Hout|Hin].
    + replace ((c <? lo) || (c >? hi)) with true
        by (symmetry; apply orb_true_iff; rewrite Z.ltb_lt, Z.gtb_gt; lia).
      unfold violation. rewrite decide_True by done.
      cbn [fst snd app]. rewrite <- app_assoc. cbn [app].
      by destruct rest.
    + replace ((c <? lo) || (c >? hi)) with false
        by (symmetry; apply orb_false_iff; rewrite Z.ltb_ge, Z.gtb_ltb, Z.ltb_ge; lia).
      unfold violation. rewrite decide_False by done. done.
Qed.

(** The loop reports exactly the specified violations and fails if and
    only if there is one. *)
Lemma check_counters_spec cs lo hi :
  check_counters 0 cs lo hi (EXIT_SUCCESS, []) =
    (match violations cs lo hi with [] => EXIT_SUCCESS | _ :: _ => EXIT_FAILURE end,
     violations cs lo hi).
Proof. apply check_counters_from. Qed.

Lemma elem_of_violations cs lo hi f :
  f ∈ violations cs lo hi ↔
  ∃ k c, cs !! k = Some c ∧ (c < lo ∨ hi < c) ∧ f = Failure (Z.of_nat k * 64) c lo hi.
Proof.
  unfold violations. rewrite list_elem_of_In, in_concat. split.
  - intros (l & Hl & Hf).
    apply list_elem_of_In, elem_of_lookup_imap in Hl as (k & c & -> & Hk).
    unfold violation in Hf. case_decide; [|done].
    destruct Hf as [<-|[]]. eauto.
  - intros (k & c & Hk & Hout & ->). exists (violation lo hi k c). split.
    + by apply list_elem_of_In, elem_of_lookup_imap_2.
    + unfold violation. rewrite decide_True by done. by left.
Qed.

Lemma sanity_check_spec cs passes :
  sanity_check cs passes =
    let found := violations cs (u64_sub passes 1) (u64_add passes 1) in
    (match found with [] => EXIT_SUCCESS | _ :: _ => EXIT_FAILURE end, found).
Proof. apply check_counters_spec. Qed.
End Check.

(** ** The loop as a whole *)

Section Run.
Context (stress_continue stress_mwc1 : nat → bool) (goto_direction : Z).

Local Abbreviation Steps := (steps stress_continue stress_mwc1 goto_direction).
Local Abbreviation Exec := (exec stress_continue stress_mwc1 goto_direction).

(** No jump of the loop faults. *)
Lemma steps_consistent k : ∀ s,
  consistent s →
  match Steps k s with
  | Running s' | Exited s' => consistent s'
  | Fault => False
  end.
Proof.
  induction k as [|k IH]; intros s Hs; cbn [steps]; [done|].
  pose proof (step_consistent stress_continue stress_mwc1 goto_direction s Hs) as Hstep.
  destruct (step _ _ _ s); [by apply IH | by destruct Hstep | done].
Qed.

(** The loop is left as soon as [stress_continue] says stop, after as many
    passes as it said go on before. *)
Lemma loop_exits p fuel :
  (∀ q, q < p → stress_continue q = true) → stress_continue p = false →
  p * MAX_LABELS + 1 ≤ fuel →
  ∃ s, Exec fuel (initial_state goto_direction) = Some s ∧
       consistent s ∧ selected stress_mwc1 goto_direction s ∧ pc s = 0 ∧
       bogo s = u64 (Z.of_nat p) ∧ polls s = S p ∧
       counters s = replicate 16 (u64 (Z.of_nat p)).
Proof.
  intros Hgo Hstop Hfuel.
  destruct (run_passes stress_continue stress_mwc1 goto_direction p
              (initial_state goto_direction))
    as (s & He & Hs & Hpc & Hb & Hp); auto using initial_consistent.
  exists s. assert (He' : Exec fuel (initial_state goto_direction) = Some s).
  { replace fuel with (p * MAX_LABELS + 1 + (fuel - (p * MAX_LABELS + 1))) by lia.
    by apply exec_more. }
  split_and!; try done.
  - eapply exec_selected; [apply initial_selected | done].
  - rewrite (consistent_at_L0x000 s) by done. by rewrite Hb.
Qed.

(** However the loop is left, every sample counter holds the bogo-op count. *)
Lemma loop_exit_counters fuel s :
  Exec fuel (initial_state goto_direction) = Some s →
  consistent s ∧ pc s = 0 ∧ counters s = replicate 16 (bogo s).
Proof.
  intros He.
  destruct (exec_consistent _ _ _ fuel _ _ (initial_consistent goto_direction) He).
  split_and!; [done | done | by apply consistent_at_L0x000].
Qed.
End Run.

(** ** The option handler *)

Section Option.
Local Open Scope Z_scope.

Lemma append_cons x (a b : string) : String x a +:+ b = String x (a +:+ b).
Proof. reflexivity. Qed.

Lemma append_assoc (a b c : string) : (a +:+ b) +:+ c = a +:+ (b +:+ c).
Proof.
  induction a as [|x a IH]; [reflexivity|].
  by rewrite !append_cons, IH.
Qed.

Lemma find_direction_known opts :
  opts = "forward" ∨ opts = "backward" ∨ opts = "random" →
  ∃ d, find_direction opts stress_goto_direction = Some d ∧ option_name d = opts.
Proof. intros [-> | [-> | ->]]; eexists; (split; [reflexivity|done]). Qed.

Lemma find_direction_unknown opts :
  opts ≠ "forward" → opts ≠ "backward" → opts ≠ "random" →
  find_direction opts stress_goto_direction = None.
Proof.
  intros H1 H2 H3. cbn [find_direction stress_goto_direction option_name].
  apply String.eqb_neq in H1, H2, H3. by rewrite H1, H2, H3.
Qed.

(** What an unknown option leaves on [stderr]. *)
Lemma unknown_message opts w :
  opts ≠ "forward" → opts ≠ "backward" → opts ≠ "random" →
  stress_set_goto_direction opts w =
    (-1, World (settings w)
           (stderr w +:+ "goto-option option '" +:+ opts +:+
            "' not known, options are: forward, backward, random" +:+ newline)).
Proof.
  intros H1 H2 H3. unfold stress_set_goto_direction.
  rewrite find_direction_unknown by done.
  cbn [list_options stress_goto_direction option_name Nat.eqb].
  unfold fprintf. cbn [settings stderr]. by rewrite !append_assoc.
Qed.
End Option.

(** ** Conversion to double *)

Section Doubles.
Local Open Scope Z_scope.

Lemma digits2_pos_size p : digits2_pos p = Pos.size p.
Proof. induction p as [p IH|p IH|]; cbn; by rewrite ?IH. Qed.

(** The number of binary digits of a positive number, from its bounds. *)
Lemma digits2_pos_bounds p d :
  2 ^ (Z.pos d - 1) ≤ Z.pos p < 2 ^ Z.pos d → digits2_pos p = d.
Proof.
  intros [Hlo Hhi]. rewrite digits2_pos_size.
  pose proof (Pos.size_gt p) as Hgt. pose proof (Pos.size_le p) as Hle.
  apply Pos2Z.pos_lt_pos in Hgt. apply Pos2Z.pos_le_pos in Hle.
  rewrite Pos2Z.inj_pow in Hgt, Hle. rewrite (Pos2Z.inj_xO p) in Hle.
  destruct (Z.lt_trichotomy (Z.pos (Pos.size p)) (Z.pos d)) as [Hlt|[Heq|Hlt]].
  - assert (2 ^ Z.pos (Pos.size p) ≤ 2 ^ (Z.pos d - 1))
      by (apply Z.pow_le_mono_r; lia).
    lia.
  - by injection Heq.
  - assert (H : 2 ^ Z.succ (Z.pos d) ≤ 2 ^ Z.pos (Pos.size p))
      by (apply Z.pow_le_mono_r; lia).
    rewrite Z.pow_succ_r in H by lia. lia.
Qed.

Lemma shr_1_m mrs : 0 ≤ shr_m mrs → shr_m (shr_1 mrs) = Z.div2 (shr_m mrs).
Proof. destruct mrs as [[|[p|p|]|p] r s]; cbn; try reflexivity; lia. Qed.

(** Shifting the rounding record [p] times shifts its mantissa [p] places. *)
Lemma iter_shr_m p : ∀ mrs,
  0 ≤ shr_m mrs →
  0 ≤ shr_m (SpecFloat.iter_pos shr_1 p mrs) ∧
  shr_m (SpecFloat.iter_pos shr_1 p mrs) = Z.shiftr (shr_m mrs) (Z.pos p).
Proof.
  assert (Hs1 : ∀ mrs, 0 ≤ shr_m mrs →
            0 ≤ shr_m (shr_1 mrs) ∧ shr_m (shr_1 mrs) = Z.shiftr (shr_m mrs) 1).
  { intros mrs Hm. rewrite shr_1_m, Z.div2_spec by done.
    split; [by apply Z.shiftr_nonneg | done]. }
  induction p as [p IH|p IH|]; intros mrs Hm; cbn [SpecFloat.iter_pos].
  - destruct (Hs1 mrs Hm) as [H1 E1]. destruct (IH _ H1) as [H2 E2].
    destruct (IH _ H2) as [H3 E3]. split; [done|].
    rewrite E3, E2, E1, !Z.shiftr_shiftr by lia. f_equal. lia.
  - destruct (IH _ Hm) as [H2 E2]. destruct (IH _ H2) as [H3 E3]. split; [done|].
    rewrite E3, E2, !Z.shiftr_shiftr by lia. f_equal. lia.
  - by apply Hs1.
Qed.

Lemma round_nearest_even_cases m l :
  round_nearest_even m l = m ∨ round_nearest_even m l = m + 1.
Proof. destruct l as [|[]]; cbn; try destruct (Z.even m); auto. Qed.

(** Rounding a 64-bit integer with its top bit set gives a binary64 number. *)
Lemma normalize_top_valid x :
  2 ^ 63 ≤ x < 2 ^ 64 → valid_binary (binary_normalize prec emax x 0 false) = true.
Proof.
  intros Hx. destruct x as [|p|p]; [lia| |lia].
  unfold binary_normalize, binary_round.
  rewrite (digits2_pos_bounds p 64) by (split; [exact (proj1 Hx) | exact (proj2 Hx)]).
  change (shl_align p 0 (fexp prec emax (64 + 0))) with (p, 0).
  unfold binary_round_aux, shr_fexp. unfold Zdigits2 at 1.
  rewrite (digits2_pos_bounds p 64) by (split; [exact (proj1 Hx) | exact (proj2 Hx)]).
  change (fexp prec emax (64 + 0) - 0) with 11.
  unfold SpecFloat.shr at 1.
  set (R := SpecFloat.iter_pos shr_1 11 _).
  assert (HR : shr_m R = Z.shiftr (Z.pos p) 11) by (apply iter_shr_m; done).
  destruct R as [m' r s]. cbn [shr_m] in *.
  assert (Hm' : 2 ^ 52 ≤ m' < 2 ^ 53).
  { rewrite HR, Z.shiftr_div_pow2 by lia. change (2 ^ 11) with 2048.
    change (2 ^ 52) with 4503599627370496. change (2 ^ 53) with 9007199254740992.
    change (2 ^ 63) with 9223372036854775808 in Hx.
    change (2 ^ 64) with 18446744073709551616 in Hx. lia. }
  clear HR. set (M := round_nearest_even m' _).
  assert (HM : 2 ^ 52 ≤ M < 2 ^ 53 ∨ M = 2 ^ 53).
  { destruct (round_nearest_even_cases m'
                (loc_of_shr_record (Build_shr_record m' r s))) as [HM|HM];
      fold M in HM; rewrite HM; change (2 ^ 53) with 9007199254740992 in *; lia. }
  clearbody M. destruct HM as [HM | ->]; [|vm_compute; reflexivity].
  destruct M as [|q|q]; [lia| |lia].
  unfold Zdigits2. rewrite (digits2_pos_bounds q 53) by done.
  change (fexp prec emax (53 + (0 + 11)) - (0 + 11)) with 0.
  cbn [SpecFloat.shr shr_record_of_loc shr_m]. change (0 + 11 <=? emax - prec) with true.
  cbn [valid_binary]. unfold bounded, canonical_mantissa.
  rewrite (digits2_pos_bounds q 53) by done. reflexivity.
Qed.

(** [(double)x] is the IEEE 754 rounding of [x], for every [uint64_t] x. *)
Lemma double_of_u64_spec x :
  0 ≤ x < u64_modulus →
  Prim2SF (double_of_u64 x) = binary_normalize prec emax x 0 false.
Proof.
  intros Hx. unfold double_of_u64. apply Prim2SF_SF2Prim.
  change u64_modulus with (2 ^ 64) in Hx.
  destruct (decide (x < 2 ^ 63)) as [Hlo|Hhi].
  - pose proof (Prim2SF_valid (of_uint63 (of_Z x))) as Hv.
    rewrite of_uint63_spec, Uint63.of_Z_spec in Hv.
    rewrite Z.mod_small in Hv; [done|]. change wB with (2 ^ 63). lia.
  - apply normalize_top_valid. lia.
Qed.
End Doubles.

(** ** Small runs *)

Section Examples.
Local Open Scope Z_scope.

Example labels_forward_0 : labels_forward !! 0%nat = Some (Label 1).
Proof. reflexivity. Qed.

Example labels_backward_0 : labels_backward !! 0%nat = Some (Label 1023).
Proof. reflexivity. Qed.

Example labels_forward_last : labels_forward !! 1023%nat = Some (Label 0).
Proof. reflexivity. Qed.

(** [G(0x040)] bumps [counters[1]] and, going forward, jumps to [L0x041]. *)
Example G_0x040 :
  G 0x040 (State 0x040 to_labels_forward [3; 2; 2] 3 3 0) =
    Running (State 0x041 to_labels_forward [3; 3; 2] 3 3 0).
Proof. reflexivity. Qed.

(** Two counters out of range, both reported. *)
Example sanity_check_two_failures :
  sanity_check [5; 9; 4; 2; 6] 5 =
    (EXIT_FAILURE, [Failure 64 9 4 6; Failure 192 2 4 6]).
Proof. reflexivity. Qed.

(** One pass backward. *)
Example backward_one_pass :
  (λ r, (rc r, bogo (final r), counters (final r), failures r)) <$>
    stress_goto (λ k, Nat.ltb k 1) (λ _, false)
      {[ "goto-direction" := STRESS_GOTO_BACKWARD ]} 0%float 1%float
      (MAX_LABELS + 1) =
  Some (EXIT_SUCCESS, 1, replicate 16 1, []).
Proof. vm_compute. reflexivity. Qed.

Example double_of_u64_top : double_of_u64 (2 ^ 64 - 1) = 18446744073709551616%float.
Proof. reflexivity. Qed.
End Examples.

(** * The specification, claim by claim *)

(** C2. The loop that builds the jump tables leaves, for every index [i]
    below 1024, the label [(i + 1) mod 1024] in entry [i] of the forward
    table and the label [(i + 1023) mod 1024] in entry [i] of the backward
    table.  Both tables have 1024 entries, and they come out the same whatever
    the two arrays held before the loop: the result depends on the table size
    and the label addresses only. *)
Theorem jump_tables_entries (i : nat) (fwd0 bwd0 : list addr) :
  i < 1024 → length fwd0 = 1024 → length bwd0 = 1024 →
  foldl fill_labels (fwd0, bwd0) (seq 0 MAX_LABELS) = build_labels ∧
  build_labels = (labels_forward, labels_backward) ∧
  length labels_forward = 1024 ∧ length labels_backward = 1024 ∧
  labels_forward !! i = Some (Label ((i + 1) mod 1024)) ∧
  labels_backward !! i = Some (Label ((i + 1023) mod 1024)).
Proof.
  intros Hi Hf Hb. split_and!.
  - by rewrite build_labels_eq, fill_labels_all.
  - unfold labels_forward, labels_backward. by destruct build_labels.
  - by rewrite labels_forward_eq, length_fmap, length_seq.
  - by rewrite labels_backward_eq, length_fmap, length_seq.
  - by rewrite labels_forward_lookup.
  - rewrite labels_backward_lookup by done. do 2 f_equal. labels_arith.
Qed.

Lemma jump_tables_entries_witness :
  foldl fill_labels (default_labels, default_labels) (seq 0 MAX_LABELS)
    = build_labels ∧
  build_labels = (labels_forward, labels_backward) ∧
  length labels_forward = 1024 ∧ length labels_backward = 1024 ∧
  labels_forward !! 1023 = Some (Label ((1023 + 1) mod 1024)) ∧
  labels_backward !! 1023 = Some (Label ((1023 + 1023) mod 1024)).
Proof.
  apply (jump_tables_entries 1023 default_labels default_labels);
    [lia | reflexivity | reflexivity].
Defined.

(** C3. Each jump table is one cycle through all 1024 labels: from any start
    [s], 1024 jumps lead back to [s], and every label [i] is reached after
    exactly one number of jumps below 1024.  This holds for the forward and
    for the backward table. *)
Theorem jump_tables_single_cycle (s : nat) :
  s < 1024 →
  (follow labels_forward 1024 s = Some s ∧
   ∀ i, i < 1024 → exists! k, k < 1024 ∧ follow labels_forward k s = Some i) ∧
  (follow labels_backward 1024 s = Some s ∧
   ∀ i, i < 1024 → exists! k, k < 1024 ∧ follow labels_backward k s = Some i).
Proof.
  intros Hs. split_and!.
  - by apply forward_returns.
  - intros i Hi. by apply forward_visits_once.
  - by apply backward_returns.
  - intros i Hi. by apply backward_visits_once.
Qed.

Lemma jump_tables_single_cycle_witness :
  (follow labels_forward 1024 7 = Some 7 ∧
   ∀ i, i < 1024 → exists! k, k < 1024 ∧ follow labels_forward k 7 = Some i) ∧
  (follow labels_backward 1024 7 = Some 7 ∧
   ∀ i, i < 1024 → exists! k, k < 1024 ∧ follow labels_backward k 7 = Some i).
Proof. apply (jump_tables_single_cycle 7). lia. Defined.

(** C1. With the direction set to forward and [stress_continue] saying go on
    at its first five calls and stop at the sixth, [stress_goto] returns
    after exactly five passes: the bogo-op counter is 5, each of the 16
    sample counters is 5, and the sanity check reports nothing. *)
Theorem forward_five_passes (stress_continue stress_mwc1 : nat → bool)
    (stored : gmap string Z) (t1 t2 : float) (fuel : nat) :
  stored !! "goto-direction" = Some STRESS_GOTO_FORWARD →
  (∀ k, k < 5 → stress_continue k = true) → stress_continue 5 = false →
  5 * MAX_LABELS + 1 ≤ fuel →
  ∃ r, stress_goto stress_continue stress_mwc1 stored t1 t2 fuel = Some r ∧
       bogo (final r) = 5%Z ∧ polls (final r) = 6 ∧
       labels (final r) = to_labels_forward ∧
       counters (final r) = replicate 16 5%Z ∧
       failures r = [] ∧ rc r = EXIT_SUCCESS.
Proof.
  intros Hd Hgo Hstop Hfuel. unfold stress_goto, stress_get_setting. rewrite Hd.
  destruct (loop_exits stress_continue stress_mwc1 STRESS_GOTO_FORWARD 5 fuel)
    as (s & -> & Hs & Hsel & Hpc & Hb & Hp & Hcs); [done..|].
  eexists. split; [reflexivity|]. cbn [final rc failures]. rewrite Hcs, Hb.
  destruct Hsel as [_ Hl]. by split_and!.
Qed.

Lemma forward_five_passes_witness :
  ∃ r, stress_goto (λ k, k <? 5) (λ _, false)
         {[ "goto-direction" := STRESS_GOTO_FORWARD ]} 0%float 1%float
         (5 * MAX_LABELS + 1) = Some r ∧
       bogo (final r) = 5%Z ∧ polls (final r) = 6 ∧
       labels (final r) = to_labels_forward ∧
       counters (final r) = replicate 16 5%Z ∧
       failures r = [] ∧ rc r = EXIT_SUCCESS.
Proof.
  apply forward_five_passes.
  - reflexivity.
  - intros k Hk. apply Nat.ltb_lt. exact Hk.
  - reflexivity.
  - lia.
Defined.

(** C6. The loop is only left at [L0x000], so a pass that has started runs
    to its end: however [stress_goto] returns, whatever the direction and
    whatever [stress_continue] answered, each of the 16 sample counters holds
    exactly the bogo-op count.  And it does return as soon as [stress_continue]
    says stop: after [p] times go on, the count and all counters are [p]
    (modulo 2^64). *)
Theorem counters_equal_pass_count (stress_continue stress_mwc1 : nat → bool)
    (stored : gmap string Z) (t1 t2 : float) :
  (∀ fuel r,
     stress_goto stress_continue stress_mwc1 stored t1 t2 fuel = Some r →
     pc (final r) = 0 ∧ counters (final r) = replicate 16 (bogo (final r))) ∧
  (∀ p fuel,
     (∀ q, q < p → stress_continue q = true) → stress_continue p = false →
     p * MAX_LABELS + 1 ≤ fuel →
     ∃ r, stress_goto stress_continue stress_mwc1 stored t1 t2 fuel = Some r ∧
          bogo (final r) = u64 (Z.of_nat p) ∧
          counters (final r) = replicate 16 (u64 (Z.of_nat p))).
Proof.
  split.
  - intros fuel r Hr. unfold stress_goto in Hr.
    destruct (exec _ _ _ fuel _) as [s|] eqn:He; [|done].
    apply loop_exit_counters in He as (_ & Hpc & Hcs).
    by simplify_eq.
  - intros p fuel Hgo Hstop Hfuel. unfold stress_goto.
    destruct (loop_exits stress_continue stress_mwc1
                (stress_get_setting "goto-direction" STRESS_GOTO_RANDOM stored) p fuel)
      as (s & -> & _ & _ & _ & Hb & _ & Hcs); [done..|].
    eexists. split; [reflexivity|]. by cbn [final].
Qed.

Lemma counters_equal_pass_count_witness :
  ∃ r, stress_goto (λ k, k <? 3) Nat.even ∅ 0%float 1%float (3 * MAX_LABELS + 1)
         = Some r ∧
       bogo (final r) = u64 (Z.of_nat 3) ∧
       counters (final r) = replicate 16 (u64 (Z.of_nat 3)).
Proof.
  apply (counters_equal_pass_count (λ k, k <? 3) Nat.even ∅ 0%float 1%float).
  - intros q Hq. apply Nat.ltb_lt. exact Hq.
  - reflexivity.
  - lia.
Defined.

(** C9. When [stress_continue] says stop at its very first call, no pass is
    run: the bogo-op counter and all 16 sample counters are 0.  The lower
    bound [bogo_counter - 1] of the sanity check is taken in [uint64_t] and
    wraps to 2^64 - 1, the upper bound is 1, so each of the 16 counters is
    reported and [stress_goto] returns [EXIT_FAILURE]. *)
Theorem zero_passes_reported_failed (stress_continue stress_mwc1 : nat → bool)
    (stored : gmap string Z) (t1 t2 : float) (fuel : nat) :
  stress_continue 0 = false → 0 < fuel →
  ∃ r, stress_goto stress_continue stress_mwc1 stored t1 t2 fuel = Some r ∧
       bogo (final r) = 0%Z ∧ counters (final r) = replicate 16 0%Z ∧
       u64_sub (bogo (final r)) 1 = 18446744073709551615%Z ∧
       u64_add (bogo (final r)) 1 = 1%Z ∧
       failures r =
         (λ k, Failure (Z.of_nat k * 64) 0 18446744073709551615 1) <$> seq 0 16 ∧
       rc r = EXIT_FAILURE.
Proof.
  intros Hstop Hfuel. unfold stress_goto.
  destruct (loop_exits stress_continue stress_mwc1
              (stress_get_setting "goto-direction" STRESS_GOTO_RANDOM stored) 0 fuel)
    as (s & -> & _ & _ & _ & Hb & _ & Hcs); [lia | done | lia |].
  eexists. split; [reflexivity|]. cbn [final rc failures]. rewrite Hcs, Hb.
  by split_and!.
Qed.

Lemma zero_passes_reported_failed_witness :
  ∃ r, stress_goto (λ _, false) Nat.even ∅ 0%float 1%float 1 = Some r ∧
       bogo (final r) = 0%Z ∧ counters (final r) = replicate 16 0%Z ∧
       u64_sub (bogo (final r)) 1 = 18446744073709551615%Z ∧
       u64_add (bogo (final r)) 1 = 1%Z ∧
       failures r =
         (λ k, Failure (Z.of_nat k * 64) 0 18446744073709551615 1) <$> seq 0 16 ∧
       rc r = EXIT_FAILURE.
Proof. apply zero_passes_reported_failed; [reflexivity | lia]. Defined.

(** The sanity check in the arithmetic of the code: each sample counter [k]
    is compared with the range from [lo] to [hi], both computed in
    [uint64_t].  Each counter outside gives one failure, with the label
    [64 * k], the count seen and the two bounds; all of them are collected, in
    order.  The result is [EXIT_FAILURE] if and only if there is a failure;
    [stress_goto] returns that result and still sets the rate metric.  The
    two bounds are [passes - 1] and [passes + 1] unless the count is 0 or
    2^64 - 1. *)
Theorem verifier_collects_violations (cs : list Z) (passes : Z)
    (stress_continue stress_mwc1 : nat → bool) (stored : gmap string Z)
    (t1 t2 : float) (fuel : nat) :
  let lo := u64_sub passes 1 in
  let hi := u64_add passes 1 in
  ((sanity_check cs passes).2 = violations cs lo hi ∧
   (∀ f, f ∈ (sanity_check cs passes).2 ↔
         ∃ k c, cs !! k = Some c ∧ (c < lo ∨ hi < c)%Z ∧
                f = Failure (Z.of_nat k * 64) c lo hi) ∧
   ((sanity_check cs passes).1 = EXIT_FAILURE ↔ (sanity_check cs passes).2 ≠ []) ∧
   ((sanity_check cs passes).1 = EXIT_SUCCESS ↔ (sanity_check cs passes).2 = [])) ∧
  ((1 ≤ passes ≤ 18446744073709551614)%Z →
   lo = (passes - 1)%Z ∧ hi = (passes + 1)%Z) ∧
  (∀ r, stress_goto stress_continue stress_mwc1 stored t1 t2 fuel = Some r →
        length (counters (final r)) = 16 ∧
        (rc r, failures r) = sanity_check (counters (final r)) (bogo (final r)) ∧
        metrics r =
          [Metric 0 "million gotos per sec"
             (goto_rate (bogo (final r)) (t2 - t1) / 1000000)%float
             STRESS_HARMONIC_MEAN]).
Proof.
  intros lo hi. split_and!.
  - by rewrite sanity_check_spec.
  - intros f. rewrite sanity_check_spec. apply elem_of_violations.
  - rewrite sanity_check_spec. cbn [fst snd]. fold lo hi.
    by destruct (violations cs lo hi).
  - rewrite sanity_check_spec. cbn [fst snd]. fold lo hi.
    by destruct (violations cs lo hi).
  - intros Hp. unfold lo, hi, u64_sub, u64_add, u64. rewrite u64_modulus_val.
    rewrite !Z.mod_small; lia.
  - intros r Hr. unfold stress_goto in Hr.
    destruct (exec _ _ _ fuel _) as [s|] eqn:He; [|done].
    apply loop_exit_counters in He as (Hs & _ & _). simplify_eq.
    cbn [final rc failures metrics]. split_and!.
    + by destruct Hs.
    + by destruct (sanity_check _ _).
    + done.
Qed.

Lemma verifier_collects_violations_witness :
  ∃ r, stress_goto (λ k, k <? 2) Nat.even ∅ 0%float 1%float (2 * MAX_LABELS + 1)
         = Some r ∧
       (u64_sub 2 1 = (2 - 1)%Z ∧ u64_add 2 1 = (2 + 1)%Z) ∧
       length (counters (final r)) = 16 ∧
       (rc r, failures r) = sanity_check (counters (final r)) (bogo (final r)) ∧
       metrics r =
         [Metric 0 "million gotos per sec"
            (goto_rate (bogo (final r)) (1 - 0) / 1000000)%float
            STRESS_HARMONIC_MEAN].
Proof.
  destruct (verifier_collects_violations [] 2 (λ k, k <? 2) Nat.even ∅
              0%float 1%float (2 * MAX_LABELS + 1)) as (_ & Hbounds & Hrun).
  eexists. split; [vm_compute; reflexivity|].
  split; [apply Hbounds; lia|]. apply Hrun. vm_compute. reflexivity.
Defined.

(** C4. The check is meant to accept every counter within one of the pass
    count, the range from [passes - 1] to [passes + 1].  The code departs
    from this on a run without a pass: when [stress_continue] says stop at its
    first call the pass count is 0 and each of the 16 counters is 0, so each
    lies in that range, and yet the code, whose lower bound wraps around to
    2^64 - 1, reports all 16 and returns [EXIT_FAILURE]. *)
Theorem verifier_misfires_without_a_pass (stress_continue stress_mwc1 : nat → bool)
    (stored : gmap string Z) (t1 t2 : float) (fuel : nat) :
  stress_continue 0 = false → 0 < fuel →
  ∃ r, stress_goto stress_continue stress_mwc1 stored t1 t2 fuel = Some r ∧
       bogo (final r) = 0%Z ∧ length (counters (final r)) = 16 ∧
       Forall (λ c, bogo (final r) - 1 ≤ c ≤ bogo (final r) + 1)%Z
              (counters (final r)) ∧
       length (failures r) = 16 ∧ rc r = EXIT_FAILURE.
Proof.
  intros Hstop Hfuel. unfold stress_goto.
  destruct (loop_exits stress_continue stress_mwc1
              (stress_get_setting "goto-direction" STRESS_GOTO_RANDOM stored) 0 fuel)
    as (s & -> & _ & _ & _ & Hb & _ & Hcs); [lia | done | lia |].
  eexists. split; [reflexivity|]. cbn [final rc failures]. rewrite Hcs, Hb.
  split_and!; try done. by apply Forall_replicate.
Qed.

Lemma verifier_misfires_without_a_pass_witness :
  ∃ r, stress_goto (λ _, false) (λ _, false) ∅ 0%float 1%float 1 = Some r ∧
       bogo (final r) = 0%Z ∧ length (counters (final r)) = 16 ∧
       Forall (λ c, bogo (final r) - 1 ≤ c ≤ bogo (final r) + 1)%Z
              (counters (final r)) ∧
       length (failures r) = 16 ∧ rc r = EXIT_FAILURE.
Proof. apply verifier_misfires_without_a_pass; [reflexivity | lia]. Defined.

(** C5. The option handler accepts exactly the tokens "forward", "backward"
    and "random", as written: for these it stores the matching direction and
    returns 0.  For any other string it returns -1, stores nothing and writes
    one line to [stderr] that names the three tokens; a caller that stops on
    the error never starts the stressor. *)
Theorem direction_option_tokens (opts : string) (w : world)
    (stress_continue stress_mwc1 : nat → bool) (t1 t2 : float) (fuel : nat) :
  let stored d := (0%Z, World (<["goto-direction" := d]> (settings w)) (stderr w)) in
  let unknown :=
    "goto-option option '" +:+ opts +:+
    "' not known, options are: forward, backward, random" +:+ newline in
  (stress_set_goto_direction "forward" w = stored STRESS_GOTO_FORWARD ∧
   stress_set_goto_direction "backward" w = stored STRESS_GOTO_BACKWARD ∧
   stress_set_goto_direction "random" w = stored STRESS_GOTO_RANDOM) ∧
  ((stress_set_goto_direction opts w).1 = 0%Z ↔
   opts = "forward" ∨ opts = "backward" ∨ opts = "random") ∧
  (opts ≠ "forward" → opts ≠ "backward" → opts ≠ "random" →
   stress_set_goto_direction opts w =
     ((-1)%Z, World (settings w) (stderr w +:+ unknown)) ∧
   invoke (Some opts) stress_continue stress_mwc1 t1 t2 fuel =
     ConfigurationError (World ∅ unknown)).
Proof.
  intros stored unknown. split_and!; try reflexivity.
  - split.
    + intros Hret.
      destruct (decide (opts = "forward")) as [|H1]; [by left|].
      destruct (decide (opts = "backward")) as [|H2]; [by right; left|].
      destruct (decide (opts = "random")) as [|H3]; [by right; right|].
      by rewrite unknown_message in Hret.
    + by intros [-> | [-> | ->]].
  - intros H1 H2 H3. split; [by apply unknown_message|].
    unfold invoke. by rewrite unknown_message.
Qed.

Lemma direction_option_tokens_witness :
  stress_set_goto_direction "sideways" (World ∅ EmptyString) =
    ((-1)%Z,
     World ∅ (EmptyString +:+ "goto-option option '" +:+ "sideways" +:+
              "' not known, options are: forward, backward, random" +:+ newline)) ∧
  invoke (Some "sideways") (λ _, true) (λ _, true) 0%float 1%float 1 =
    ConfigurationError
      (World ∅ ("goto-option option '" +:+ "sideways" +:+
                "' not known, options are: forward, backward, random" +:+ newline)).
Proof.
  apply (direction_option_tokens "sideways" (World ∅ EmptyString)); discriminate.
Defined.

(** C7. [stress_goto] sets one metric, "million gotos per sec", for the
    harmonic mean.  When the duration is above zero its value is
    [1024.0 * passes / duration / 1000000.0]: the pass count converted to
    double, then the IEEE 754 binary64 product and the two quotients, as the
    reference semantics of the standard library computes them.  Otherwise,
    so also when the duration is zero, the value is 0.0.  10 passes in half a
    second give 0.02048. *)
Theorem rate_metric (stress_continue stress_mwc1 : nat → bool)
    (stored : gmap string Z) (t1 t2 : float) (fuel : nat) (r : result) :
  stress_goto stress_continue stress_mwc1 stored t1 t2 fuel = Some r →
  let passes := bogo (final r) in
  let duration := (t2 - t1)%float in
  let reported v := [Metric 0 "million gotos per sec" v STRESS_HARMONIC_MEAN] in
  (∃ v, metrics r = reported v ∧
        ((0 <? duration)%float = true →
         Prim2SF v =
           SF64div
             (SF64div
                (SF64mul (Prim2SF 1024) (binary_normalize prec emax passes 0 false))
                (Prim2SF duration))
             (Prim2SF 1000000)) ∧
        ((0 <? duration)%float = false → v = 0%float)) ∧
  (duration = 0%float → metrics r = reported 0%float) ∧
  (passes = 10%Z → duration = 0.5%float → metrics r = reported 0.02048%float).
Proof.
  intros Hr passes duration reported.
  assert (Hm : metrics r = reported (goto_rate passes duration / 1000000)%float ∧
               (0 ≤ passes < u64_modulus)%Z).
  { unfold stress_goto in Hr. destruct (exec _ _ _ fuel _) as [s|] eqn:He; [|done].
    apply loop_exit_counters in He as ([_ Hb _ _] & _ & _). by simplify_eq. }
  destruct Hm as [Hm Hp]. split_and!.
  - eexists. split; [exact Hm|]. unfold goto_rate. split; intros Hd; rewrite Hd.
    + by rewrite !div_spec, mul_spec, double_of_u64_spec.
    + reflexivity.
  - intros Hd. by rewrite Hm, Hd.
  - intros Hp10 Hd. by rewrite Hm, Hp10, Hd.
Qed.

Lemma rate_metric_witness :
  ∃ r, stress_goto (λ k, k <? 10) Nat.even ∅ 1%float 1.5%float
         (10 * MAX_LABELS + 1) = Some r ∧
       metrics r =
         [Metric 0 "million gotos per sec" 0.02048%float STRESS_HARMONIC_MEAN].
Proof.
  eexists. split; [vm_compute; reflexivity|].
  match goal with
  | |- metrics ?r = _ =>
      refine (proj2 (proj2
                (rate_metric (λ k, k <? 10) Nat.even ∅ 1%float 1.5%float
                   (10 * MAX_LABELS + 1) r _)) _ _)
  end; [vm_compute; reflexivity | reflexivity | reflexivity].
Defined.

(** * Further properties of the loop and of the check *)

(** Among the first [n] answers either all say go on, or there is a first
    one that says stop. *)
Lemma stop_search (stress_continue : nat → bool) n :
  (∀ q, q < n → stress_continue q = true) ∨
  (∃ p, p < n ∧ first_stop stress_continue p).
Proof.
  induction n as [|n [Hall|(p & Hp & Hstop)]].
  - left. intros q Hq. lia.
  - destruct (stress_continue n) eqn:Hn.
    + left. intros q Hq. destruct (decide (q = n)) as [->|]; [done|].
      apply Hall. lia.
    + right. exists n. split; [lia|]. by split.
  - right. exists p. split; [lia | done].
Qed.

Section Passes.
Context (stress_continue stress_mwc1 : nat → bool) (goto_direction : Z).

Local Abbreviation Steps := (steps stress_continue stress_mwc1 goto_direction).
Local Abbreviation Exec := (exec stress_continue stress_mwc1 goto_direction).

(** While control stays in the loop, nothing is returned. *)
Lemma exec_steps_None k : ∀ fuel s s',
  Steps k s = Running s' → fuel ≤ k → Exec fuel s = None.
Proof.
  induction k as [|k IH]; intros fuel s s' Hk Hf.
  - by replace fuel with 0 by lia.
  - destruct fuel as [|fuel]; [done|]. cbn [steps exec] in *.
    destruct (step _ _ _ s) as [s1| |]; [|done..].
    eapply IH; [done | lia].
Qed.

(** Inside a pass: [j] labels further, [j] labels less to go. *)
Lemma within_pass j : ∀ s,
  consistent s → pc s ≠ 0 → j < togo (labels s) (pc s) →
  ∃ s', Steps j s = Running s' ∧ consistent s' ∧ pc s' ≠ 0 ∧
        togo (labels s') (pc s') = togo (labels s) (pc s) - j ∧
        labels s' = labels s ∧ bogo s' = bogo s ∧
        polls s' = polls s ∧ draws s' = draws s.
Proof.
  induction j as [|j IH]; intros s Hs Hpc Hj.
  - exists s. split_and!; try done. lia.
  - destruct (G_consistent stress_continue stress_mwc1 goto_direction s Hs Hpc)
      as (s1 & Hstep & Hs1 & Hpc1 & Hl1 & Hb1 & Hp1 & Hd1).
    assert (Hlt : pc s < MAX_LABELS) by (by destruct Hs).
    assert (Htogo : togo (labels s1) (pc s1) = togo (labels s) (pc s) - 1 ∧ pc s1 ≠ 0).
    { rewrite Hl1, Hpc1. destruct (labels s); unfold togo, next in *; labels_arith. }
    destruct Htogo as [Htogo Hnz].
    destruct (IH s1 Hs1 Hnz) as (s2 & Hsteps & Hs2 & Hpc2 & Ht2 & Hl2 & Hb2 & Hp2 & Hd2);
      [lia|].
    exists s2. cbn [steps]. rewrite Hstep.
    split_and!; [done | done | done | lia | congruence ..].
Qed.

(** The first [k] labels of a pass, for [k] from 1 to 1023: going forward
    control is at [L<k>], going backward at [L<1024 - k>]. *)
Lemma pass_prefix s k :
  consistent s → pc s = 0 → stress_continue (polls s) = true →
  1 ≤ k → k < MAX_LABELS →
  ∃ s', Steps k s = Running s' ∧ consistent s' ∧
        pc s' = match labels s' with
                | to_labels_forward => k
                | to_labels_backward => MAX_LABELS - k
                end ∧
        bogo s' = u64_add (bogo s) 1 ∧ polls s' = S (polls s).
Proof.
  intros Hs Hpc Hsc Hk1 Hk.
  destruct (L0x000_consistent stress_continue stress_mwc1 goto_direction s Hs Hpc Hsc)
    as (s1 & Hstep & Hs1 & Hl1 & Hd1 & Hpc1 & Hb1 & Hp1).
  assert (Htogo : togo (labels s1) (pc s1) = MAX_LABELS - 1 ∧ pc s1 ≠ 0).
  { rewrite Hpc1. destruct (labels s1); unfold togo, next; labels_arith. }
  destruct Htogo as [Htogo Hnz].
  destruct (within_pass (k - 1) s1 Hs1 Hnz)
    as (s2 & Hsteps & Hs2 & Hpc2 & Ht2 & Hl2 & Hb2 & Hp2 & Hd2); [lia|].
  exists s2. split_and!.
  - replace k with (1 + (k - 1)) by lia. rewrite steps_add. cbn [steps].
    by rewrite Hstep.
  - done.
  - assert (Hlt : pc s2 < MAX_LABELS) by (by destruct Hs2).
    rewrite Htogo in Ht2. destruct (labels s2); unfold togo in Ht2; labels_arith.
  - congruence.
  - congruence.
Qed.

(** After [p] times go on, [p] passes are done and control is at [L0x000]. *)
Lemma passes_done p : ∀ s,
  consistent s → pc s = 0 →
  (∀ q, q < p → stress_continue (polls s + q) = true) →
  ∃ s', Steps (p * MAX_LABELS) s = Running s' ∧ consistent s' ∧ pc s' = 0 ∧
        bogo s' = u64 (bogo s + Z.of_nat p) ∧ polls s' = polls s + p ∧
        draws s' = (if (goto_direction =? STRESS_GOTO_RANDOM)%Z
                    then draws s + p else draws s).
Proof.
  induction p as [|p IH]; intros s Hs Hpc Hgo.
  - exists s. cbn [Nat.mul steps]. split_and!; try done.
    + rewrite Z.add_0_r. symmetry. apply u64_small. by destruct Hs.
    + destruct (goto_direction =? STRESS_GOTO_RANDOM)%Z; lia.
  - destruct (whole_pass stress_continue stress_mwc1 goto_direction s Hs Hpc)
      as (s1 & Hsteps & Hs1 & Hpc1 & _ & Hd1 & Hb1 & Hp1).
    { rewrite <- (Nat.add_0_r (polls s)). apply Hgo. lia. }
    destruct (IH s1 Hs1 Hpc1) as (s2 & Hsteps2 & Hs2 & Hpc2 & Hb2 & Hp2 & Hd2).
    { intros q Hq. rewrite Hp1. replace (S (polls s) + q) with (polls s + S q) by lia.
      apply Hgo. lia. }
    exists s2. split_and!; try done.
    + replace (S p * MAX_LABELS) with (MAX_LABELS + p * MAX_LABELS) by lia.
      rewrite steps_add. by rewrite Hsteps.
    + rewrite Hb2, Hb1. unfold u64_add, u64.
      rewrite Zplus_mod_idemp_l. f_equal. lia.
    + lia.
    + rewrite Hd2, Hd1. destruct (goto_direction =? STRESS_GOTO_RANDOM)%Z; lia.
Qed.

(** Nothing is returned before [stress_continue] says stop. *)
Lemma no_exit_before n fuel s :
  consistent s → pc s = 0 →
  (∀ q, q < n → stress_continue (polls s + q) = true) →
  fuel ≤ n * MAX_LABELS → Exec fuel s = None.
Proof.
  intros Hs Hpc Hgo Hfuel.
  destruct (passes_done n s Hs Hpc Hgo) as (s' & Hsteps & _).
  by eapply exec_steps_None.
Qed.

(** The state in which the loop is left, when the first stop is at call [p]. *)
Lemma exit_state p fuel :
  first_stop stress_continue p → p * MAX_LABELS + 1 ≤ fuel →
  ∃ s, Exec fuel (initial_state goto_direction) = Some s ∧
       pc s = 0 ∧ bogo s = u64 (Z.of_nat p) ∧ polls s = S p ∧
       draws s = (if (goto_direction =? STRESS_GOTO_RANDOM)%Z then p else 0) ∧
       counters s = replicate 16 (u64 (Z.of_nat p)).
Proof.
  intros [Hgo Hstop] Hfuel.
  destruct (passes_done p (initial_state goto_direction))
    as (s & Hsteps & Hs & Hpc & Hb & Hp & Hd); auto using initial_consistent.
  cbn [initial_state polls bogo draws Nat.add] in Hb, Hp, Hd.
  eexists. split.
  - replace fuel with (p * MAX_LABELS + (1 + (fuel - (p * MAX_LABELS + 1)))) by lia.
    rewrite (exec_steps _ _ _ _ _ _ _ Hsteps). cbn [Nat.add exec].
    rewrite L0x000_break; [reflexivity | done | by rewrite Hp].
  - cbn [pc bogo polls draws counters]. split_and!; try done.
    + by rewrite Hp.
    + by rewrite (consistent_at_L0x000 s), Hb.
Qed.

(** The loop returns exactly when the fuel reaches past the first stop. *)
Lemma exec_returns_iff fuel :
  is_Some (Exec fuel (initial_state goto_direction)) ↔
  ∃ p, first_stop stress_continue p ∧ p * MAX_LABELS + 1 ≤ fuel.
Proof.
  split.
  - intros [s He]. destruct (stop_search stress_continue fuel) as [Hall|(p & Hp & Hstop)].
    + rewrite (no_exit_before fuel fuel (initial_state goto_direction)) in He;
        [done | apply initial_consistent | done | auto | labels_arith].
    + exists p. split; [done|].
      destruct (decide (p * MAX_LABELS + 1 ≤ fuel)) as [|Hlt]; [done|].
      rewrite (no_exit_before p fuel (initial_state goto_direction)) in He;
        [done | apply initial_consistent | done | apply Hstop | lia].
  - intros (p & Hstop & Hfuel).
    destruct (exit_state p fuel Hstop Hfuel) as (s & -> & _). by eexists.
Qed.
End Passes.

Section Band.
Local Open Scope Z_scope.

(** The check finds nothing exactly when every counter is in the range. *)
Lemma violations_nil_iff cs lo hi :
  violations cs lo hi = [] ↔ Forall (λ c, lo ≤ c ≤ hi) cs.
Proof.
  rewrite Forall_lookup. split.
  - intros Hnil k c Hk.
    destruct (decide (c < lo ∨ hi < c)) as [Hout|Hin]; [|lia].
    assert (Hf : Failure (Z.of_nat k * 64) c lo hi ∈ violations cs lo hi)
      by (apply elem_of_violations; eauto).
    rewrite Hnil in Hf. by apply not_elem_of_nil in Hf.
  - intros Hall. destruct (violations cs lo hi) as [|f l] eqn:Hv; [done|].
    assert (Hf : f ∈ violations cs lo hi) by (rewrite Hv; left).
    apply elem_of_violations in Hf as (k & c & Hk & Hout & _).
    specialize (Hall k c Hk). lia.
Qed.

(** When every counter is out of the range, every counter is reported. *)
Lemma violations_all cs lo hi :
  Forall (λ c, c < lo ∨ hi < c) cs →
  violations cs lo hi = imap (λ k c, Failure (Z.of_nat k * 64) c lo hi) cs.
Proof.
  unfold violations.
  change (violation lo hi) with (λ k, violation lo hi (0 + k)%nat).
  change (λ k c, Failure (Z.of_nat k * 64) c lo hi)
    with (λ k c, Failure (Z.of_nat (0 + k)%nat * 64) c lo hi).
  generalize 0%nat. induction cs as [|c cs IH]; intros i Hall; [done|].
  apply Forall_cons in Hall as [Hc Hall].
  rewrite !imap_cons, concat_cons.
  replace (imap ((λ k, violation lo hi (i + k)%nat) ∘ S) cs)
    with (imap (λ k, violation lo hi (S i + k)%nat) cs)
    by (apply imap_ext; intros k x _; cbn; f_equal; lia).
  replace (imap ((λ k c0, Failure (Z.of_nat (i + k)%nat * 64) c0 lo hi) ∘ S) cs)
    with (imap (λ k c0, Failure (Z.of_nat (S i + k)%nat * 64) c0 lo hi) cs)
    by (apply imap_ext; intros k x _; cbn; do 2 f_equal; lia).
  rewrite IH by done. unfold violation. by rewrite decide_True.
Qed.
End Band.

(** X1. At every point of every run each sample counter holds the bogo-op
    count or one less, the counter of label 0 always the count itself; control
    is at one of the 1024 labels, no jump goes astray and the counters stay
    16. *)
Theorem counters_never_off_by_more_than_one
    (stress_continue stress_mwc1 : nat → bool) (goto_direction : Z) (k : nat) :
  match steps stress_continue stress_mwc1 goto_direction k
              (initial_state goto_direction) with
  | Running s | Exited s =>
      pc s < MAX_LABELS ∧ length (counters s) = 16 ∧
      counters s !! 0 = Some (bogo s) ∧
      ∀ j c, counters s !! j = Some c → c = bogo s ∨ c = u64_sub (bogo s) 1
  | Fault => False
  end.
Proof.
  pose proof (steps_consistent stress_continue stress_mwc1 goto_direction k
                _ (initial_consistent goto_direction)) as Hc.
  destruct (steps _ _ _ k _) as [s|s|]; [| |done];
    (destruct Hc as [Hpc Hb Hcs Hlen]; split_and!; [done | done | |]).
  1,3: rewrite Hcs by lia; f_equal;
       destruct (labels s); cbn [passed]; rewrite bool_decide_eq_true_2; lia.
  all: intros j c Hj;
       assert (j < 16) by (rewrite <- Hlen; by eapply lookup_lt_Some);
       rewrite Hcs in Hj by done; apply (inj Some) in Hj as <-;
       destruct (passed _ _ _); auto.
Qed.

(** X2. A pass goes through the labels in the order of its table: [k] jumps
    into the pass, for [k] from 1 to 1023, control is at [L<k>] with the
    forward table and at [L<1024 - k>] with the backward table.  This holds
    for each pass for which [stress_continue] said go on. *)
Theorem pass_runs_labels_in_order (stress_continue stress_mwc1 : nat → bool)
    (goto_direction : Z) (p k : nat) :
  (∀ q, q ≤ p → stress_continue q = true) → 1 ≤ k → k < MAX_LABELS →
  ∃ s, steps stress_continue stress_mwc1 goto_direction (p * MAX_LABELS + k)
         (initial_state goto_direction) = Running s ∧
       pc s = match labels s with
              | to_labels_forward => k
              | to_labels_backward => MAX_LABELS - k
              end ∧
       bogo s = u64 (Z.of_nat p + 1) ∧ polls s = S p.
Proof.
  intros Hgo Hk1 Hk.
  destruct (passes_done stress_continue stress_mwc1 goto_direction p
              (initial_state goto_direction))
    as (s & Hsteps & Hs & Hpc & Hb & Hp & _);
    [apply initial_consistent | done | intros q Hq; apply Hgo; cbn; lia |].
  cbn [initial_state polls bogo Nat.add] in Hb, Hp.
  destruct (pass_prefix stress_continue stress_mwc1 goto_direction s k)
    as (s' & Hsteps' & _ & Hpc' & Hb' & Hp'); [done | done | | done | done |].
  { rewrite Hp. apply Hgo. lia. }
  exists s'. split_and!.
  - rewrite steps_add. by rewrite Hsteps.
  - done.
  - rewrite Hb', Hb. apply u64_add_u64.
  - by rewrite Hp', Hp.
Qed.

Lemma pass_runs_labels_in_order_witness :
  ∃ s, steps (λ _, true) (λ _, true) STRESS_GOTO_BACKWARD (2 * MAX_LABELS + 24)
         (initial_state STRESS_GOTO_BACKWARD) = Running s ∧
       pc s = match labels s with
              | to_labels_forward => 24
              | to_labels_backward => MAX_LABELS - 24
              end ∧
       bogo s = u64 (Z.of_nat 2 + 1) ∧ polls s = 3.
Proof.
  apply (pass_runs_labels_in_order (λ _, true) (λ _, true) STRESS_GOTO_BACKWARD 2 24).
  - reflexivity.
  - lia.
  - rewrite MAX_LABELS_val. lia.
Defined.

(** X3. [stress_goto] returns exactly when [stress_continue] says stop at
    some call: with the first stop at call [p] it returns after [1024 * p]
    jumps and one more look at [stress_continue], not before; if
    [stress_continue] never says stop it never returns. *)
Theorem returns_iff_told_to_stop (stress_continue stress_mwc1 : nat → bool)
    (stored : gmap string Z) (t1 t2 : float) (fuel : nat) :
  (is_Some (stress_goto stress_continue stress_mwc1 stored t1 t2 fuel) ↔
   ∃ p, first_stop stress_continue p ∧ p * MAX_LABELS + 1 ≤ fuel) ∧
  ((∀ q, stress_continue q = true) →
   stress_goto stress_continue stress_mwc1 stored t1 t2 fuel = None).
Proof.
  assert (Hiff : is_Some (stress_goto stress_continue stress_mwc1 stored t1 t2 fuel) ↔
                 ∃ p, first_stop stress_continue p ∧ p * MAX_LABELS + 1 ≤ fuel).
  { rewrite <- (exec_returns_iff stress_continue stress_mwc1
                  (stress_get_setting "goto-direction" STRESS_GOTO_RANDOM stored)).
    unfold stress_goto. destruct (exec _ _ _ fuel _); split; intros [? ?]; by eauto. }
  split; [done|]. intros Hall.
  destruct (stress_goto _ _ _ _ _ _) as [r|] eqn:Hr; [|done].
  destruct (proj1 Hiff) as (p & [_ Hstop] & _); [by eexists|].
  by rewrite Hall in Hstop.
Qed.

Lemma returns_iff_told_to_stop_witness :
  stress_goto (λ _, true) Nat.even ∅ 0%float 1%float (3 * MAX_LABELS) = None.
Proof.
  refine (proj2 (returns_iff_told_to_stop (λ _, true) Nat.even ∅ 0%float 1%float
                   (3 * MAX_LABELS)) _).
  reflexivity.
Defined.

(** X4. The framework is called a fixed number of times: with the first
    stop at call [p], [stress_continue] has been called [p + 1] times and the
    bogo-op counter bumped [p] times; [stress_mwc1] has been called [p] times
    with the random direction and never with any other. *)
Theorem framework_calls_counted (stress_continue stress_mwc1 : nat → bool)
    (stored : gmap string Z) (t1 t2 : float) (p fuel : nat) :
  first_stop stress_continue p → p * MAX_LABELS + 1 ≤ fuel →
  ∃ r, stress_goto stress_continue stress_mwc1 stored t1 t2 fuel = Some r ∧
       polls (final r) = S p ∧ bogo (final r) = u64 (Z.of_nat p) ∧
       draws (final r) =
         (if (stress_get_setting "goto-direction" STRESS_GOTO_RANDOM stored
              =? STRESS_GOTO_RANDOM)%Z then p else 0).
Proof.
  intros Hstop Hfuel. unfold stress_goto.
  destruct (exit_state stress_continue stress_mwc1
              (stress_get_setting "goto-direction" STRESS_GOTO_RANDOM stored)
              p fuel Hstop Hfuel) as (s & -> & _ & Hb & Hp & Hd & _).
  eexists. split; [reflexivity|]. by cbn [final].
Qed.

Lemma framework_calls_counted_witness :
  ∃ r, stress_goto (λ k, k <? 3) Nat.even ∅ 0%float 1%float (3 * MAX_LABELS + 1)
         = Some r ∧
       polls (final r) = 4 ∧ bogo (final r) = u64 (Z.of_nat 3) ∧
       draws (final r) =
         (if (stress_get_setting "goto-direction" STRESS_GOTO_RANDOM ∅
              =? STRESS_GOTO_RANDOM)%Z then 3 else 0).
Proof.
  apply (framework_calls_counted (λ k, k <? 3) Nat.even ∅ 0%float 1%float 3).
  - split; [|reflexivity]. intros q Hq. apply Nat.ltb_lt. exact Hq.
  - lia.
Defined.

(** X5. The value [stress_goto] returns depends on the final bogo-op count
    alone: it is [EXIT_SUCCESS] unless that count is 0 or 2^64 - 1, and in
    these two cases all 16 counters are reported.  Never is only a part of
    the counters reported. *)
Theorem verdict_depends_on_count_only (stress_continue stress_mwc1 : nat → bool)
    (stored : gmap string Z) (t1 t2 : float) (fuel : nat) (r : result) :
  stress_goto stress_continue stress_mwc1 stored t1 t2 fuel = Some r →
  (rc r = EXIT_SUCCESS ↔
   bogo (final r) ≠ 0%Z ∧ bogo (final r) ≠ 18446744073709551615%Z) ∧
  (rc r = EXIT_SUCCESS ∧ failures r = [] ∨
   rc r = EXIT_FAILURE ∧ length (failures r) = 16).
Proof.
  intros Hr. unfold stress_goto in Hr.
  destruct (exec _ _ _ fuel _) as [s|] eqn:He; [|done].
  apply loop_exit_counters in He as ([_ Hb _ _] & _ & Hcs). simplify_eq.
  cbn [final rc failures]. rewrite Hcs, sanity_check_spec. cbn zeta.
  set (b := bogo s) in *. cbn [fst snd].
  rewrite u64_modulus_val in Hb.
  destruct (decide (b ≠ 0 ∧ b ≠ 18446744073709551615)%Z) as [Hin|Hout].
  - rewrite (proj2 (violations_nil_iff _ _ _)).
    + split; [done | by left].
    + apply Forall_replicate. unfold u64_sub, u64_add, u64.
      rewrite u64_modulus_val. lia.
  - rewrite violations_all.
    + split; [|right; split; [done | by rewrite length_imap, length_replicate]].
      split; [done | by intros ?].
    + apply Forall_replicate. unfold u64_sub, u64_add, u64.
      rewrite u64_modulus_val. lia.
Qed.

Lemma verdict_depends_on_count_only_witness :
  ∃ r, stress_goto (λ k, k <? 1) Nat.even ∅ 0%float 1%float (MAX_LABELS + 1) = Some r ∧
       (rc r = EXIT_SUCCESS ↔
        bogo (final r) ≠ 0%Z ∧ bogo (final r) ≠ 18446744073709551615%Z) ∧
       (rc r = EXIT_SUCCESS ∧ failures r = [] ∨
        rc r = EXIT_FAILURE ∧ length (failures r) = 16).
Proof.
  eexists. split; [vm_compute; reflexivity|].
  match goal with
  | |- (rc ?r = _ ↔ _) ∧ _ =>
      refine (verdict_depends_on_count_only (λ k, k <? 1) Nat.even ∅
                0%float 1%float (MAX_LABELS + 1) r _)
  end.
  vm_compute. reflexivity.
Defined.

Section Directions.
Context (stress_continue stress_mwc1 : nat → bool).

(** A direction other than backward and random is run as forward: the
    [switch] has no case for it and [labels] keeps its initialiser. *)
Lemma step_other_direction d s :
  d ≠ STRESS_GOTO_RANDOM →
  step stress_continue stress_mwc1 d s =
    step stress_continue stress_mwc1 STRESS_GOTO_FORWARD s.
Proof.
  intros Hd. apply Z.eqb_neq in Hd. unfold step, L0x000.
  destruct (pc s); [|done]. by rewrite Hd.
Qed.

Lemma exec_other_direction d fuel : ∀ s,
  d ≠ STRESS_GOTO_RANDOM →
  exec stress_continue stress_mwc1 d fuel s =
    exec stress_continue stress_mwc1 STRESS_GOTO_FORWARD fuel s.
Proof.
  induction fuel as [|fuel IH]; intros s Hd; cbn [exec]; [done|].
  rewrite step_other_direction by done.
  destruct (step _ _ _ s); [by apply IH | done | done].
Qed.

Lemma initial_other_direction d :
  d ≠ STRESS_GOTO_BACKWARD → initial_state d = initial_state STRESS_GOTO_FORWARD.
Proof.
  intros Hd. apply Z.eqb_neq in Hd. unfold initial_state, initial_labels.
  rewrite Hd. by destruct (d =? STRESS_GOTO_FORWARD)%Z, (d =? STRESS_GOTO_RANDOM)%Z.
Qed.
End Directions.

(** X6. What a caller sees of [stress_goto] does not depend on the direction
    nor on the bits drawn: the value returned, the bogo-op count, the sample
    counters, the failures and the metric are the same for any two stored
    settings and any two bit sources, and so is whether it returns. *)
Theorem outcome_independent_of_direction (stress_continue : nat → bool)
    (stress_mwc1 stress_mwc1' : nat → bool) (stored stored' : gmap string Z)
    (t1 t2 : float) (fuel : nat) :
  observable <$> stress_goto stress_continue stress_mwc1 stored t1 t2 fuel =
  observable <$> stress_goto stress_continue stress_mwc1' stored' t1 t2 fuel.
Proof.
  unfold stress_goto.
  set (d := stress_get_setting _ _ stored).
  set (d' := stress_get_setting _ _ stored').
  assert (Hcase : (∃ p, first_stop stress_continue p ∧ p * MAX_LABELS + 1 ≤ fuel) ∨
                  ¬ (∃ p, first_stop stress_continue p ∧ p * MAX_LABELS + 1 ≤ fuel)).
  { destruct (stop_search stress_continue fuel) as [Hall|(p & Hp & Hstop)].
    - right. intros (p & [_ Hstop] & Hfuel). rewrite Hall in Hstop; [done|].
      rewrite MAX_LABELS_val in Hfuel. lia.
    - destruct (decide (p * MAX_LABELS + 1 ≤ fuel)); [by eauto|].
      right. intros (p' & Hstop' & Hfuel').
      destruct Hstop as [Hgo Hs], Hstop' as [Hgo' Hs'].
      destruct (Nat.lt_trichotomy p p') as [Hlt|[->|Hlt]]; [|done|].
      + by rewrite (Hgo' _ Hlt) in Hs.
      + by rewrite (Hgo _ Hlt) in Hs'. }
  destruct Hcase as [(p & Hstop & Hfuel)|Hnone].
  - destruct (exit_state stress_continue stress_mwc1 d p fuel Hstop Hfuel)
      as (s & -> & _ & Hb & _ & _ & Hcs).
    destruct (exit_state stress_continue stress_mwc1' d' p fuel Hstop Hfuel)
      as (s' & -> & _ & Hb' & _ & _ & Hcs').
    cbn [fmap option_fmap option_map]. unfold observable.
    cbn [rc final failures metrics]. by rewrite Hb, Hb', Hcs, Hcs'.
  - destruct (exec _ _ d fuel _) eqn:He.
    { exfalso. apply Hnone. apply (exec_returns_iff stress_continue stress_mwc1 d).
      by rewrite He. }
    destruct (exec _ _ d' fuel _) eqn:He'; [|done].
    exfalso. apply Hnone. apply (exec_returns_iff stress_continue stress_mwc1' d').
    by rewrite He'.
Qed.

(** X7. A stored direction that is none of the three known ones is run as
    forward: [stress_goto] does exactly what it does with the forward
    direction stored. *)
Theorem unknown_direction_runs_forward (stress_continue stress_mwc1 : nat → bool)
    (stored : gmap string Z) (d : Z) (t1 t2 : float) (fuel : nat) :
  stored !! "goto-direction" = Some d →
  d ≠ STRESS_GOTO_BACKWARD → d ≠ STRESS_GOTO_RANDOM →
  stress_goto stress_continue stress_mwc1 stored t1 t2 fuel =
    stress_goto stress_continue stress_mwc1
      (<["goto-direction" := STRESS_GOTO_FORWARD]> stored) t1 t2 fuel.
Proof.
  intros Hd Hb Hr. unfold stress_goto, stress_get_setting.
  rewrite Hd, lookup_insert_eq.
  by rewrite exec_other_direction, initial_other_direction.
Qed.

Lemma unknown_direction_runs_forward_witness :
  stress_goto (λ k, k <? 1) Nat.even {[ "goto-direction" := 7%Z ]}
    0%float 1%float (MAX_LABELS + 1) =
  stress_goto (λ k, k <? 1) Nat.even
    (<["goto-direction" := STRESS_GOTO_FORWARD]> {[ "goto-direction" := 7%Z ]})
    0%float 1%float (MAX_LABELS + 1).
Proof.
  refine (unknown_direction_runs_forward (λ k, k <? 1) Nat.even
            {[ "goto-direction" := 7%Z ]} 7 0%float 1%float (MAX_LABELS + 1) _ _ _).
  - reflexivity.
  - discriminate.
  - discriminate.
Defined.

(** X8. The two tables undo each other: a jump through the forward table
    followed by a jump through the backward table leads back to the label it
    started from, and so the other way round. *)
Theorem tables_mutually_inverse (i : nat) :
  i < MAX_LABELS →
  goto labels_forward i ≫= goto labels_backward = Some i ∧
  goto labels_backward i ≫= goto labels_forward = Some i.
Proof.
  intros Hi. split.
  - rewrite goto_forward by done. cbn [mbind option_bind].
    rewrite goto_backward by (apply Nat.mod_upper_bound; done).
    f_equal. labels_arith.
  - rewrite goto_backward by done. cbn [mbind option_bind].
    rewrite goto_forward by (apply Nat.mod_upper_bound; done).
    f_equal. labels_arith.
Qed.

Lemma tables_mutually_inverse_witness :
  goto labels_forward 1023 ≫= goto labels_backward = Some 1023 ∧
  goto labels_backward 1023 ≫= goto labels_forward = Some 1023.
Proof. apply (tables_mutually_inverse 1023). rewrite MAX_LABELS_val. lia. Defined.

(** X9. The sanity check succeeds exactly when every counter lies between
    [lo] and [hi].  With a bogo-op count of 0 or of 2^64 - 1 the two bounds
    wrap past each other and every counter is reported, whatever it holds. *)
Theorem sanity_check_band (cs : list Z) (passes : Z) :
  let lo := u64_sub passes 1 in
  let hi := u64_add passes 1 in
  ((sanity_check cs passes).1 = EXIT_SUCCESS ↔ Forall (λ c, lo ≤ c ≤ hi)%Z cs) ∧
  (Forall (λ c, 0 ≤ c < u64_modulus)%Z cs →
   passes = 0%Z ∨ passes = 18446744073709551615%Z →
   (sanity_check cs passes).2 = imap (λ k c, Failure (Z.of_nat k * 64) c lo hi) cs).
Proof.
  intros lo hi. rewrite sanity_check_spec. cbn zeta. fold lo hi. cbn [fst snd]. split.
  - rewrite <- violations_nil_iff. by destruct (violations cs lo hi).
  - intros Hcs Hp. apply violations_all. eapply Forall_impl; [exact Hcs|].
    intros c Hc. cbn beta in Hc. rewrite u64_modulus_val in Hc.
    unfold lo, hi, u64_sub, u64_add, u64. rewrite u64_modulus_val.
    destruct Hp as [-> | ->]; lia.
Qed.

Lemma sanity_check_band_witness :
  (sanity_check [0; 1; 18446744073709551615]%Z 18446744073709551615).2 =
    imap (λ k c, Failure (Z.of_nat k * 64) c
                   (u64_sub 18446744073709551615 1) (u64_add 18446744073709551615 1))
         [0; 1; 18446744073709551615]%Z.
Proof.
  refine (proj2 (sanity_check_band [0; 1; 18446744073709551615]%Z
                   18446744073709551615) _ _).
  - repeat constructor; vm_compute; discriminate.
  - right. reflexivity.
Defined.

(** X10. The direction a run takes is the one of the last accepted option:
    after an accepted token the run reads its direction, and an option that is
    rejected afterwards changes neither the stored direction nor the run. *)
Theorem accepted_direction_survives_unknown_option (tok bad : string)
    (d : stress_goto_direction_t) (w : world)
    (stress_continue stress_mwc1 : nat → bool) (t1 t2 : float) (fuel : nat) :
  find_direction tok stress_goto_direction = Some d →
  bad ≠ "forward" → bad ≠ "backward" → bad ≠ "random" →
  let w1 := (stress_set_goto_direction tok w).2 in
  let w2 := (stress_set_goto_direction bad w1).2 in
  stress_get_setting "goto-direction" STRESS_GOTO_RANDOM (settings w1) = direction d ∧
  settings w2 = settings w1 ∧
  stress_goto stress_continue stress_mwc1 (settings w2) t1 t2 fuel =
    stress_goto stress_continue stress_mwc1
      {[ "goto-direction" := direction d ]} t1 t2 fuel.
Proof.
  intros Hd H1 H2 H3 w1 w2.
  assert (Hw1 : settings w1 = <["goto-direction" := direction d]> (settings w)).
  { unfold w1, stress_set_goto_direction. by rewrite Hd. }
  assert (Hw2 : settings w2 = settings w1).
  { unfold w2. by rewrite unknown_message. }
  assert (Hget : stress_get_setting "goto-direction" STRESS_GOTO_RANDOM (settings w1)
                 = direction d).
  { unfold stress_get_setting. by rewrite Hw1, lookup_insert_eq. }
  split_and!; [done | done |].
  unfold stress_goto. rewrite Hw2, Hget.
  unfold stress_get_setting. by rewrite lookup_singleton_eq.
Qed.

Lemma accepted_direction_survives_unknown_option_witness :
  let w := World ∅ EmptyString in
  let w1 := (stress_set_goto_direction "backward" w).2 in
  let w2 := (stress_set_goto_direction "Backward" w1).2 in
  stress_get_setting "goto-direction" STRESS_GOTO_RANDOM (settings w1) =
    direction (Direction "backward" STRESS_GOTO_BACKWARD) ∧
  settings w2 = settings w1 ∧
  stress_goto (λ k, k <? 1) Nat.even (settings w2) 0%float 1%float (MAX_LABELS + 1) =
    stress_goto (λ k, k <? 1) Nat.even
      {[ "goto-direction" := direction (Direction "backward" STRESS_GOTO_BACKWARD) ]}
      0%float 1%float (MAX_LABELS + 1).
Proof.
  refine (accepted_direction_survives_unknown_option "backward" "Backward"
            (Direction "backward" STRESS_GOTO_BACKWARD) (World ∅ EmptyString)
            (λ k, k <? 1) Nat.even 0%float 1%float (MAX_LABELS + 1) _ _ _ _).
  - reflexivity.
  - discriminate.
  - discriminate.
  - discriminate.
Defined.

(** X11. Neither table has a shorter way round: jumping [k] times from a
    label leads back to it exactly when [k] is a multiple of 1024. *)
Theorem back_at_start_only_after_full_cycles (s k : nat) :
  s < MAX_LABELS →
  (follow labels_forward k s = Some s ↔ k mod MAX_LABELS = 0) ∧
  (follow labels_backward k s = Some s ↔ k mod MAX_LABELS = 0).
Proof.
  intros Hs. rewrite follow_forward, follow_backward by done.
  split; (split; intros H; [apply (inj Some) in H | f_equal]); labels_arith.
Qed.

Lemma back_at_start_only_after_full_cycles_witness :
  (follow labels_forward 2048 5 = Some 5 ↔ 2048 mod MAX_LABELS = 0) ∧
  (follow labels_backward 2048 5 = Some 5 ↔ 2048 mod MAX_LABELS = 0).
Proof.
  apply (back_at_start_only_after_full_cycles 5 2048). rewrite MAX_LABELS_val. lia.
Defined.

(** * The table walked in a pass *)

Section TableInUse.
Context (stress_continue stress_mwc1 : nat → bool) (goto_direction : Z).

Local Abbreviation Step := (step stress_continue stress_mwc1 goto_direction).
Local Abbreviation Steps := (steps stress_continue stress_mwc1 goto_direction).

(** Every jump reads the array [labels] points to after the step: the label
    control comes to is the entry of that array at the label it leaves. *)
Lemma jump_reads_table s s' :
  Step s = Running s' →
  match labels s' with
  | to_labels_forward => labels_forward
  | to_labels_backward => labels_backward
  end !! pc s = Some (Label (pc s')).
Proof.
  unfold step, L0x000, G, goto. intros Hstep. destruct (pc s) as [|n].
  - destruct (stress_continue (polls s)); cbn [negb] in Hstep; [|done].
    destruct (deref _ !! 0) as [[|m]|] eqn:Hl; simplify_eq.
    cbn [labels pc]. rewrite <- Hl.
    by destruct (goto_direction =? STRESS_GOTO_RANDOM)%Z,
                (stress_mwc1 (draws s)), (labels s).
  - destruct (S n <? MAX_LABELS); [|done].
    destruct (deref _ !! S n) as [[|m]|] eqn:Hl; simplify_eq.
    cbn [labels pc]. rewrite <- Hl. by destruct (labels s).
Qed.

(** The first labels of a pass, with the table chosen for it. *)
Lemma pass_prefix_table s k :
  consistent s → pc s = 0 → stress_continue (polls s) = true →
  1 ≤ k → k < MAX_LABELS →
  ∃ s', Steps k s = Running s' ∧
        labels s' = (if (goto_direction =? STRESS_GOTO_RANDOM)%Z then
                       if stress_mwc1 (draws s) then to_labels_backward
                       else to_labels_forward
                     else labels s) ∧
        pc s' = match labels s' with
                | to_labels_forward => k
                | to_labels_backward => MAX_LABELS - k
                end.
Proof.
  intros Hs Hpc Hsc Hk1 Hk.
  destruct (L0x000_consistent stress_continue stress_mwc1 goto_direction s Hs Hpc Hsc)
    as (s1 & Hstep & Hs1 & Hl1 & Hd1 & Hpc1 & Hb1 & Hp1).
  assert (Htogo : togo (labels s1) (pc s1) = MAX_LABELS - 1 ∧ pc s1 ≠ 0).
  { rewrite Hpc1. destruct (labels s1); unfold togo, next; labels_arith. }
  destruct Htogo as [Htogo Hnz].
  destruct (within_pass stress_continue stress_mwc1 goto_direction (k - 1) s1 Hs1 Hnz)
    as (s2 & Hsteps & Hs2 & Hpc2 & Ht2 & Hl2 & Hb2 & Hp2 & Hd2); [lia|].
  exists s2. split_and!.
  - replace k with (1 + (k - 1)) by lia. rewrite steps_add. cbn [steps].
    by rewrite Hstep.
  - congruence.
  - assert (Hlt : pc s2 < MAX_LABELS) by (by destruct Hs2).
    rewrite Htogo in Ht2. destruct (labels s2); unfold togo in Ht2; labels_arith.
Qed.

(** The labels walked in the pass that follows [p] completed ones. *)
Lemma walk_of_pass p k :
  (∀ q, q ≤ p → stress_continue q = true) → 1 ≤ k → k < MAX_LABELS →
  ∃ s, Steps (p * MAX_LABELS + k) (initial_state goto_direction) = Running s ∧
       labels s = (if (goto_direction =? STRESS_GOTO_RANDOM)%Z then
                     if stress_mwc1 p then to_labels_backward else to_labels_forward
                   else if (goto_direction =? STRESS_GOTO_BACKWARD)%Z
                        then to_labels_backward else to_labels_forward) ∧
       pc s = match labels s with
              | to_labels_forward => k
              | to_labels_backward => MAX_LABELS - k
              end.
Proof.
  intros Hgo Hk1 Hk.
  destruct (passes_done stress_continue stress_mwc1 goto_direction p
              (initial_state goto_direction))
    as (s & Hsteps & Hs & Hpc & _ & Hp & Hd);
    [apply initial_consistent | done | intros q Hq; apply Hgo; cbn; lia |].
  cbn [initial_state polls draws Nat.add] in Hp, Hd.
  pose proof (steps_selected stress_continue stress_mwc1 goto_direction
                (p * MAX_LABELS) _ (initial_selected stress_mwc1 goto_direction)) as Hsel.
  rewrite Hsteps in Hsel. unfold selected in Hsel.
  destruct (pass_prefix_table s k) as (s' & Hsteps' & Hl' & Hpc');
    [done | done | rewrite Hp; apply Hgo; lia | done | done |].
  exists s'. split_and!.
  - rewrite steps_add. by rewrite Hsteps.
  - rewrite Hl'. destruct (goto_direction =? STRESS_GOTO_RANDOM)%Z eqn:Hr.
    + by rewrite Hd.
    + destruct Hsel as [_ ->]. unfold initial_labels. rewrite Hr.
      destruct (goto_direction =? STRESS_GOTO_FORWARD)%Z eqn:Hf; [|done].
      apply Z.eqb_eq in Hf. by rewrite Hf.
  - done.
Qed.
End TableInUse.

(** C8. With the random direction the table is chosen anew at the start of
    every pass by one bit drawn, the backward table if the bit is set and the
    forward table otherwise, and kept to the end of the pass; with the forward
    or the backward direction no bit is drawn and the table is the matching
    one throughout.  The jumps follow that table: every jump lands on the
    entry the array in use holds for the label it leaves, and [k] jumps into a
    pass control is at [L<k>] when the table is the forward one and at
    [L<1024 - k>] when it is the backward one. *)
Theorem table_selection (stress_continue stress_mwc1 : nat → bool)
    (goto_direction : Z) (k : nat) :
  let table bit := if bit : bool then to_labels_backward else to_labels_forward in
  let array p := match p with
                 | to_labels_forward => labels_forward
                 | to_labels_backward => labels_backward
                 end in
  match steps stress_continue stress_mwc1 goto_direction k
              (initial_state goto_direction) with
  | Running s | Exited s =>
      (goto_direction = STRESS_GOTO_FORWARD →
       labels s = to_labels_forward ∧ draws s = 0) ∧
      (goto_direction = STRESS_GOTO_BACKWARD →
       labels s = to_labels_backward ∧ draws s = 0) ∧
      (goto_direction = STRESS_GOTO_RANDOM →
       bogo s = u64 (Z.of_nat (draws s)) ∧
       labels s = match draws s with
                  | O => to_labels_forward
                  | S j => table (stress_mwc1 j)
                  end)
  | Fault => False
  end ∧
  (∀ s s', step stress_continue stress_mwc1 goto_direction s = Running s' →
     array (labels s') !! pc s = Some (Label (pc s')) ∧
     (pc s ≠ 0 → labels s' = labels s ∧ draws s' = draws s) ∧
     (pc s = 0 → goto_direction = STRESS_GOTO_RANDOM →
      labels s' = table (stress_mwc1 (draws s)) ∧ draws s' = S (draws s)) ∧
     (pc s = 0 → goto_direction ≠ STRESS_GOTO_RANDOM →
      labels s' = labels s ∧ draws s' = draws s)) ∧
  (∀ p j, (∀ q, q ≤ p → stress_continue q = true) → 1 ≤ j → j < MAX_LABELS →
     ∃ s, steps stress_continue stress_mwc1 goto_direction (p * MAX_LABELS + j)
            (initial_state goto_direction) = Running s ∧
          labels s = (if (goto_direction =? STRESS_GOTO_RANDOM)%Z
                      then table (stress_mwc1 p)
                      else if (goto_direction =? STRESS_GOTO_BACKWARD)%Z
                           then to_labels_backward else to_labels_forward) ∧
          pc s = match labels s with
                 | to_labels_forward => j
                 | to_labels_backward => MAX_LABELS - j
                 end).
Proof.
  intros table array. split_and!.
  - pose proof (steps_consistent stress_continue stress_mwc1 goto_direction k
                  _ (initial_consistent goto_direction)) as Hc.
    pose proof (steps_selected stress_continue stress_mwc1 goto_direction k
                  _ (initial_selected stress_mwc1 goto_direction)) as Hsel.
    destruct (steps _ _ _ k _) as [s|s|]; [| |done];
      (unfold selected in Hsel; split_and!; intros ->; cbn in Hsel;
       destruct Hsel; by split).
  - intros s s' Hstep. split; [by apply jump_reads_table in Hstep|].
    unfold step, L0x000, G in Hstep. split_and!.
    + intros Hpc. destruct (pc s) as [|n]; [done|].
      destruct (S n <? MAX_LABELS); [|done].
      destruct (goto _ (S n)); by simplify_eq.
    + intros Hpc ->. rewrite Hpc in Hstep.
      destruct (stress_continue (polls s)); [|done]. cbn [negb] in Hstep.
      destruct (goto _ 0); by simplify_eq.
    + intros Hpc Hd. rewrite Hpc in Hstep. apply Z.eqb_neq in Hd.
      destruct (stress_continue (polls s)); [|done]. cbn [negb] in Hstep.
      rewrite Hd in Hstep.
      destruct (goto _ 0); by simplify_eq.
  - intros p j Hgo Hj1 Hj. by apply walk_of_pass.
Qed.

Lemma table_selection_witness :
  ∃ s, steps (λ _, true) Nat.even STRESS_GOTO_RANDOM (2 * MAX_LABELS + 5)
         (initial_state STRESS_GOTO_RANDOM) = Running s ∧
       labels s = (if (STRESS_GOTO_RANDOM =? STRESS_GOTO_RANDOM)%Z
                   then if Nat.even 2 then to_labels_backward else to_labels_forward
                   else if (STRESS_GOTO_RANDOM =? STRESS_GOTO_BACKWARD)%Z
                        then to_labels_backward else to_labels_forward) ∧
       pc s = match labels s with
              | to_labels_forward => 5
              | to_labels_backward => MAX_LABELS - 5
              end.
Proof.
  refine (proj2 (proj2 (table_selection (λ _, true) Nat.even STRESS_GOTO_RANDOM 0))
            2 5 _ _ _).
  - reflexivity.
  - lia.
  - rewrite MAX_LABELS_val. lia.
Defined.

(** C10. [stress_goto] starts from the random direction and takes another
    one only when a direction was stored.  With none stored the run is the
    run of the random direction: it returns once [stress_continue] says stop,
    having drawn one bit for each pass, the table last in use being the one
    the last bit chose.  With another direction stored no bit is drawn. *)
Theorem default_direction_is_random (stress_continue stress_mwc1 : nat → bool)
    (stored : gmap string Z) (t1 t2 : float) (fuel : nat) :
  (stored !! "goto-direction" = None →
   stress_get_setting "goto-direction" STRESS_GOTO_RANDOM stored = STRESS_GOTO_RANDOM ∧
   stress_goto stress_continue stress_mwc1 stored t1 t2 fuel =
     stress_goto stress_continue stress_mwc1
       (<["goto-direction" := STRESS_GOTO_RANDOM]> stored) t1 t2 fuel ∧
   ∀ r, stress_goto stress_continue stress_mwc1 stored t1 t2 fuel = Some r →
        exec stress_continue stress_mwc1 STRESS_GOTO_RANDOM fuel
             (initial_state STRESS_GOTO_RANDOM) = Some (final r) ∧
        bogo (final r) = u64 (Z.of_nat (draws (final r)))) ∧
  (∀ d, stored !! "goto-direction" = Some d →
        stress_get_setting "goto-direction" STRESS_GOTO_RANDOM stored = d) ∧
  (∀ p, stored !! "goto-direction" = None →
        first_stop stress_continue p → p * MAX_LABELS + 1 ≤ fuel →
        ∃ r, stress_goto stress_continue stress_mwc1 stored t1 t2 fuel = Some r ∧
             exec stress_continue stress_mwc1 STRESS_GOTO_RANDOM fuel
                  (initial_state STRESS_GOTO_RANDOM) = Some (final r) ∧
             polls (final r) = S p ∧ bogo (final r) = u64 (Z.of_nat p) ∧
             draws (final r) = p ∧
             labels (final r) =
               match p with
               | O => to_labels_forward
               | S j => if stress_mwc1 j then to_labels_backward
                        else to_labels_forward
               end) ∧
  (∀ p d, stored !! "goto-direction" = Some d → d ≠ STRESS_GOTO_RANDOM →
          first_stop stress_continue p → p * MAX_LABELS + 1 ≤ fuel →
          ∃ r, stress_goto stress_continue stress_mwc1 stored t1 t2 fuel = Some r ∧
               draws (final r) = 0 ∧
               labels (final r) =
                 (if (d =? STRESS_GOTO_BACKWARD)%Z then to_labels_backward
                  else to_labels_forward)).
Proof.
  split_and!.
  - intros Hnone.
    assert (Hd : stress_get_setting "goto-direction" STRESS_GOTO_RANDOM stored
                 = STRESS_GOTO_RANDOM)
      by (unfold stress_get_setting; by rewrite Hnone).
    split_and!; [done | |].
    + unfold stress_goto, stress_get_setting.
      by rewrite Hnone, lookup_insert_eq.
    + intros r Hr. unfold stress_goto in Hr. rewrite Hd in Hr.
      destruct (exec _ _ _ fuel _) as [s|] eqn:He; [|done].
      pose proof (exec_selected _ _ _ _ _ _
                    (initial_selected stress_mwc1 STRESS_GOTO_RANDOM) He) as [Hb _].
      by simplify_eq.
  - intros d Hsome. unfold stress_get_setting. by rewrite Hsome.
  - intros p Hnone Hstop Hfuel. unfold stress_goto, stress_get_setting.
    rewrite Hnone.
    destruct (exit_state stress_continue stress_mwc1 STRESS_GOTO_RANDOM p fuel
                Hstop Hfuel) as (s & He & _ & Hb & Hp & Hd & _).
    pose proof (exec_selected _ _ _ _ _ _
                  (initial_selected stress_mwc1 STRESS_GOTO_RANDOM) He) as [_ Hl].
    rewrite He. eexists. split; [reflexivity|]. cbn [final].
    cbn in Hd. rewrite Hd in Hl. by split_and!.
  - intros p d Hsome Hd Hstop Hfuel. unfold stress_goto, stress_get_setting.
    rewrite Hsome.
    destruct (exit_state stress_continue stress_mwc1 d p fuel Hstop Hfuel)
      as (s & He & _ & _ & _ & Hdr & _).
    pose proof (exec_selected _ _ _ _ _ _
                  (initial_selected stress_mwc1 d) He) as Hsel.
    unfold selected in Hsel. apply Z.eqb_neq in Hd. rewrite Hd in Hsel, Hdr.
    destruct Hsel as [_ Hl]. rewrite He. eexists. split; [reflexivity|].
    cbn [final]. split; [done|]. rewrite Hl. unfold initial_labels. rewrite Hd.
    destruct (d =? STRESS_GOTO_FORWARD)%Z eqn:Hf.
    + apply Z.eqb_eq in Hf. by rewrite Hf.
    + by destruct (d =? STRESS_GOTO_BACKWARD)%Z.
Qed.

Lemma default_direction_is_random_witness :
  ∃ r, stress_goto (λ k, k <? 3) Nat.even ∅ 0%float 1%float (3 * MAX_LABELS + 1)
         = Some r ∧
       exec (λ k, k <? 3) Nat.even STRESS_GOTO_RANDOM (3 * MAX_LABELS + 1)
            (initial_state STRESS_GOTO_RANDOM) = Some (final r) ∧
       polls (final r) = 4 ∧ bogo (final r) = u64 (Z.of_nat 3) ∧
       draws (final r) = 3 ∧
       labels (final r) =
         (if Nat.even 2 then to_labels_backward else to_labels_forward).
Proof.
  refine (proj1 (proj2 (proj2
            (default_direction_is_random (λ k, k <? 3) Nat.even ∅
               0%float 1%float (3 * MAX_LABELS + 1)))) 3 _ _ _).
  - reflexivity.
  - split; [|reflexivity]. intros q Hq. apply Nat.ltb_lt. exact Hq.
  - lia.
Defined.
